(** * rocBLAS handle: device memory arena, size queries and scoped overrides

    A shallow embedding of the resource-management part of [_rocblas_handle]
    (handle.hpp) and of the argument checking of [rocblas_her_impl] and
    [rocblas_gbmv_batched_impl].

    Conventions.
    - [size_t] is the 64-bit unsigned type of the LP64 targets of ROCm: a
      value is a [Z] in [0, 2^64) and every arithmetic operation of the
      source is followed by [wrap].
    - [void*] is a 64-bit address, a [Z]; [nullptr] is address 0.
    - [rocblas_int] is a signed 32-bit [int]: a value is a [Z] in
      [-2^31, 2^31), and the one sum of the argument checks, [ku + kl + 1],
      is reduced to that range as the two's complement addition of the
      compiled code does ([int_add]; the language leaves the overflow of a
      signed addition undefined).
    - A member function that mutates the handle takes the handle and
      returns the new handle next to its result. *)

From Stdlib Require Import ZArith List Bool Lia Permutation.
From Stdlib Require String.
Import ListNotations.
Local Open Scope Z_scope.

(** ** Machine integers *)

Definition SIZE_WIDTH : Z := 64.
Definition SIZE_MODULUS : Z := 2 ^ SIZE_WIDTH.
Definition SIZE_MAX : Z := SIZE_MODULUS - 1.

(** Reduction of an integer to its [size_t] value. *)
Definition wrap (z : Z) : Z := z mod SIZE_MODULUS.

Definition is_size_t (z : Z) : Prop := 0 <= z < SIZE_MODULUS.

Definition size_add (a b : Z) : Z := wrap (a + b).
Definition size_sub (a b : Z) : Z := wrap (a - b).

(** [rocblas_int]: 32 bits, two's complement. *)
Definition INT_MIN : Z := - 2 ^ 31.
Definition INT_MAX : Z := 2 ^ 31 - 1.

Definition is_int (z : Z) : Prop := INT_MIN <= z <= INT_MAX.

Definition int_wrap (z : Z) : Z := (z - INT_MIN) mod 2 ^ 32 + INT_MIN.

Definition int_add (a b : Z) : Z := int_wrap (a + b).

(** ** Chunk rounding (handle.hpp, [roundup_device_memory_size]) *)

Definition DEFAULT_DEVICE_MEMORY_SIZE : Z := 4 * 1048576.
Definition MIN_CHUNK_SIZE : Z := 64.

(** The [static_assert] of the source: the chunk size is a power of two. *)
Definition MIN_CHUNK_SIZE_is_power_of_two : bool :=
  (0 <? MIN_CHUNK_SIZE) && (Z.land MIN_CHUNK_SIZE (MIN_CHUNK_SIZE - 1) =? 0).

(** [return ((size - 1) | (MIN_CHUNK_SIZE - 1)) + 1;] *)
Definition roundup_device_memory_size (size : Z) : Z :=
  size_add (Z.lor (size_sub size 1) (MIN_CHUNK_SIZE - 1)) 1.

(** The rounding of the mathematical integers: the least multiple of the
    chunk size that is not below [s].  It is what the source computes as
    long as the result fits in a [size_t]. *)
Definition ceil_chunk (s : Z) : Z :=
  MIN_CHUNK_SIZE * ((s + MIN_CHUNK_SIZE - 1) / MIN_CHUNK_SIZE).

(** ** Status codes and modes (rocblas-types.h) *)

Inductive rocblas_status : Type :=
| rocblas_status_success
| rocblas_status_invalid_handle
| rocblas_status_not_implemented
| rocblas_status_invalid_pointer
| rocblas_status_invalid_size
| rocblas_status_memory_error
| rocblas_status_internal_error
| rocblas_status_size_increased
| rocblas_status_size_unchanged
| rocblas_status_invalid_value.

Inductive rocblas_pointer_mode : Type :=
| rocblas_pointer_mode_host
| rocblas_pointer_mode_device.

Inductive rocblas_atomics_mode : Type :=
| rocblas_atomics_not_allowed
| rocblas_atomics_allowed.

Inductive rocblas_fill : Type :=
| rocblas_fill_upper
| rocblas_fill_lower
| rocblas_fill_full.

(** An argument of an enumeration type can hold any value of the
    underlying integer type; [rocblas_operation_invalid] stands for the
    values that are not enumerators. *)
Inductive rocblas_operation : Type :=
| rocblas_operation_none
| rocblas_operation_transpose
| rocblas_operation_conjugate_transpose
| rocblas_operation_invalid (value : Z).

(** Modelled from the spec: the enumerators of [rocblas_layer_mode]
    (rocblas-types.h is not among the sources): three logging channels,
    each enabled by its own bit of the mask. *)
Definition rocblas_layer_mode_none : Z := 0.
Definition rocblas_layer_mode_log_trace : Z := 1.
Definition rocblas_layer_mode_log_bench : Z := 2.
Definition rocblas_layer_mode_log_profile : Z := 4.

(** ** Pointers *)

Definition ptr : Type := Z.
Definition nullptr : ptr := 0.

(** [!p] *)
Definition is_null (p : ptr) : bool := p =? nullptr.

(** [p + off] for a byte pointer [p], on a flat 64-bit address space. *)
Definition ptr_add (p : ptr) (off : Z) : ptr := wrap (p + off).

(** ** The handle (handle.hpp, [struct _rocblas_handle]) *)

Record _rocblas_handle : Type := mk_rocblas_handle {
  rocblas_stream : Z;
  pointer_mode : rocblas_pointer_mode;
  layer_mode : Z;
  atomics_mode : rocblas_atomics_mode;
  any_order : bool;
  check_numerics : Z;
  device_memory_size : Z;
  device_memory_query_size : Z;
  device_memory : ptr;
  device_memory_is_rocblas_managed : bool;
  device_memory_in_use : bool;
  device_memory_size_query : bool;
  gsu_workspace_size : Z;
  gsu_workspace : ptr
}.

(** The default member initializers.  [device_memory_query_size] has none:
    its first value is whatever the constructor leaves there. *)
Definition new_handle (query_size0 : Z) : _rocblas_handle :=
  {| rocblas_stream := 0;
     pointer_mode := rocblas_pointer_mode_host;
     layer_mode := rocblas_layer_mode_none;
     atomics_mode := rocblas_atomics_allowed;
     any_order := false;
     check_numerics := 0;
     device_memory_size := 0;
     device_memory_query_size := query_size0;
     device_memory := nullptr;
     device_memory_is_rocblas_managed := false;
     device_memory_in_use := false;
     device_memory_size_query := false;
     gsu_workspace_size := 0;
     gsu_workspace := nullptr |}.

(** Assignments to single members. *)
Definition set_pointer_mode (v : rocblas_pointer_mode) (h : _rocblas_handle) :=
  mk_rocblas_handle (rocblas_stream h) v (layer_mode h) (atomics_mode h)
    (any_order h) (check_numerics h) (device_memory_size h)
    (device_memory_query_size h) (device_memory h)
    (device_memory_is_rocblas_managed h) (device_memory_in_use h)
    (device_memory_size_query h) (gsu_workspace_size h) (gsu_workspace h).

Definition set_any_order (v : bool) (h : _rocblas_handle) :=
  mk_rocblas_handle (rocblas_stream h) (pointer_mode h) (layer_mode h)
    (atomics_mode h) v (check_numerics h) (device_memory_size h)
    (device_memory_query_size h) (device_memory h)
    (device_memory_is_rocblas_managed h) (device_memory_in_use h)
    (device_memory_size_query h) (gsu_workspace_size h) (gsu_workspace h).

Definition set_device_memory_size (v : Z) (h : _rocblas_handle) :=
  mk_rocblas_handle (rocblas_stream h) (pointer_mode h) (layer_mode h)
    (atomics_mode h) (any_order h) (check_numerics h) v
    (device_memory_query_size h) (device_memory h)
    (device_memory_is_rocblas_managed h) (device_memory_in_use h)
    (device_memory_size_query h) (gsu_workspace_size h) (gsu_workspace h).

Definition set_device_memory_query_size (v : Z) (h : _rocblas_handle) :=
  mk_rocblas_handle (rocblas_stream h) (pointer_mode h) (layer_mode h)
    (atomics_mode h) (any_order h) (check_numerics h) (device_memory_size h)
    v (device_memory h)
    (device_memory_is_rocblas_managed h) (device_memory_in_use h)
    (device_memory_size_query h) (gsu_workspace_size h) (gsu_workspace h).

Definition set_device_memory (v : ptr) (h : _rocblas_handle) :=
  mk_rocblas_handle (rocblas_stream h) (pointer_mode h) (layer_mode h)
    (atomics_mode h) (any_order h) (check_numerics h) (device_memory_size h)
    (device_memory_query_size h) v
    (device_memory_is_rocblas_managed h) (device_memory_in_use h)
    (device_memory_size_query h) (gsu_workspace_size h) (gsu_workspace h).

Definition set_device_memory_in_use (v : bool) (h : _rocblas_handle) :=
  mk_rocblas_handle (rocblas_stream h) (pointer_mode h) (layer_mode h)
    (atomics_mode h) (any_order h) (check_numerics h) (device_memory_size h)
    (device_memory_query_size h) (device_memory h)
    (device_memory_is_rocblas_managed h) v
    (device_memory_size_query h) (gsu_workspace_size h) (gsu_workspace h).

Definition set_device_memory_size_query (v : bool) (h : _rocblas_handle) :=
  mk_rocblas_handle (rocblas_stream h) (pointer_mode h) (layer_mode h)
    (atomics_mode h) (any_order h) (check_numerics h) (device_memory_size h)
    (device_memory_query_size h) (device_memory h)
    (device_memory_is_rocblas_managed h) (device_memory_in_use h)
    v (gsu_workspace_size h) (gsu_workspace h).

Definition set_gsu_workspace_size (v : Z) (h : _rocblas_handle) :=
  mk_rocblas_handle (rocblas_stream h) (pointer_mode h) (layer_mode h)
    (atomics_mode h) (any_order h) (check_numerics h) (device_memory_size h)
    (device_memory_query_size h) (device_memory h)
    (device_memory_is_rocblas_managed h) (device_memory_in_use h)
    (device_memory_size_query h) v (gsu_workspace h).

Definition set_gsu_workspace (v : ptr) (h : _rocblas_handle) :=
  mk_rocblas_handle (rocblas_stream h) (pointer_mode h) (layer_mode h)
    (atomics_mode h) (any_order h) (check_numerics h) (device_memory_size h)
    (device_memory_query_size h) (device_memory h)
    (device_memory_is_rocblas_managed h) (device_memory_in_use h)
    (device_memory_size_query h) (gsu_workspace_size h) v.

(** The memory block of a handle: its address, its size and who owns it. *)
Definition memory_block (h : _rocblas_handle) : ptr * Z * bool :=
  (device_memory h, device_memory_size h, device_memory_is_rocblas_managed h).

(** ** Size queries (handle.hpp) *)

Definition is_device_memory_size_query (h : _rocblas_handle) : bool :=
  device_memory_size_query h.

(** [(roundup_device_memory_size(size_t(sizes)) + ...)], the unary right
    fold of C++17 over a non-empty pack. *)
Fixpoint fold_roundup_sizes (sizes : list Z) : Z :=
  match sizes with
  | [] => 0
  | [size] => roundup_device_memory_size size
  | size :: rest => size_add (roundup_device_memory_size size) (fold_roundup_sizes rest)
  end.

(** [total = 0; {total += roundup_device_memory_size(size_t(sizes))...}],
    the branch of the source for older standards. *)
Definition accumulate_roundup_sizes (total : Z) (sizes : list Z) : Z :=
  fold_left (fun total size => size_add total (roundup_device_memory_size size))
    sizes total.

Definition set_optimal_device_memory_size (h : _rocblas_handle) (sizes : list Z)
  : rocblas_status * _rocblas_handle :=
  if negb (device_memory_size_query h) then (rocblas_status_internal_error, h)
  else
    let total := fold_roundup_sizes sizes in
    if device_memory_query_size h <? total
    then (rocblas_status_size_increased, set_device_memory_query_size total h)
    else (rocblas_status_size_unchanged, h).

(** The recordings of a sequence of routine calls, one list of sizes each. *)
Definition record_requirements (h : _rocblas_handle) (calls : list (list Z))
  : _rocblas_handle :=
  fold_left (fun h sizes => snd (set_optimal_device_memory_size h sizes)) calls h.

(** The sum of the rounded sizes in the words of the spec: each size is
    rounded, the rounded sizes are added, and the result is a [size_t]. *)
Definition sum_rounded (sizes : list Z) : Z :=
  fold_right (fun size acc => roundup_device_memory_size size + acc) 0 sizes.

Definition rounded_total (sizes : list Z) : Z := wrap (sum_rounded sizes).

(** The largest of a list of totals (0 when there is none). *)
Definition max_total (totals : list Z) : Z := fold_right Z.max 0 totals.

(** The exact sum of the sizes rounded up as integers, and the condition
    that it is representable: no operation of the source wraps around. *)
Definition sum_ceil (sizes : list Z) : Z :=
  fold_right (fun size acc => ceil_chunk size + acc) 0 sizes.

Definition no_wrap (sizes : list Z) : Prop :=
  Forall is_size_t sizes /\ sum_ceil sizes < SIZE_MODULUS.

(** ** The arena allocation (handle.hpp, [class _device_malloc]) *)

(** [void* device_allocator(size_t size)] is declared in handle.hpp and
    defined in handle.cpp, which is not among the sources: every function
    that calls it takes it as its first argument.  It may change the handle
    (the guard, the block) and returns the address of the block, or
    [nullptr]. *)
Definition allocator : Type := _rocblas_handle -> Z -> ptr * _rocblas_handle.

(** The members of the object; its [handle] member is the handle that the
    functions below take and return. *)
Record _device_malloc : Type := mk_device_malloc {
  success : bool;
  total : Z;
  pointers : list ptr
}.

(** What a constructor leaves behind: the object, the handle, and the
    sizes the allocator was called with, in the order of the calls. *)
Record construction : Type := mk_construction {
  object : _device_malloc;
  handle_after : _rocblas_handle;
  allocator_requests : list Z
}.

(** [offsets[] = {(old = total, total += roundup_device_memory_size(sizes), old)...}]:
    the offsets and the final value of [total]. *)
Fixpoint allocate_offsets (total : Z) (sizes : list Z) : list Z * Z :=
  match sizes with
  | [] => ([], total)
  | size :: rest =>
      let old := total in
      let total := size_add total (roundup_device_memory_size size) in
      let (offsets, total) := allocate_offsets total rest in
      (old :: offsets, total)
  end.

(** [{!sizes ? i++, nullptr : ptr + offsets[i++]...}], from index [i] on. *)
Fixpoint allocate_pack (p : ptr) (offsets : list Z) (i : nat) (sizes : list Z)
  : list ptr :=
  match sizes with
  | [] => []
  | size :: rest =>
      (if size =? 0 then nullptr else ptr_add p (nth i offsets 0))
        :: allocate_pack p offsets (S i) rest
  end.

(** [return {};] for an array of as many pointers as there are sizes (the
    source constructs [_device_malloc<N>] with [N] sizes only). *)
Definition null_pointers (sizes : list Z) : list ptr :=
  repeat nullptr (length sizes).

(** The constructor: [success = true], [total = 0], then
    [pointers(allocate_pointers(sizes...))]. *)
Definition allocate_pointers (device_allocator : allocator)
  (handle : _rocblas_handle) (sizes : list Z) : construction :=
  let (offsets, total) := allocate_offsets 0 sizes in
  if total =? 0 then
    mk_construction (mk_device_malloc true total (null_pointers sizes)) handle []
  else
    let (p, handle) := device_allocator handle total in
    if is_null p then
      mk_construction (mk_device_malloc false total (null_pointers sizes))
        handle [total]
    else
      mk_construction (mk_device_malloc true total (allocate_pack p offsets 0 sizes))
        handle [total].

(** [handle->device_malloc(sizes...)] *)
Definition device_malloc := allocate_pointers.

(** [explicit operator bool() const] *)
Definition is_ok (m : _device_malloc) : bool := success m.

(** [size_t total_size() const] *)
Definition total_size (m : _device_malloc) : Z := total m.

(** [operator T() const], for [N == 1]: [pointers[0]]. *)
Definition to_pointer (m : _device_malloc) : ptr := nth 0 (pointers m) nullptr.

(** [~_device_malloc()] *)
Definition _device_malloc_dtor (handle : _rocblas_handle) : _rocblas_handle :=
  set_device_memory_in_use false handle.

(** The sub-buffers of an allocation: the address and the requested size of
    every slot whose size is not zero. *)
Definition sub_buffers (m : _device_malloc) (sizes : list Z) : list (ptr * Z) :=
  filter (fun b => negb (snd b =? 0)) (combine (pointers m) sizes).

Definition overlap (a b : ptr * Z) : bool :=
  (fst a <? fst b + snd b) && (fst b <? fst a + snd a).

Fixpoint pairwise_disjoint (l : list (ptr * Z)) : bool :=
  match l with
  | [] => true
  | a :: rest => forallb (fun b => negb (overlap a b)) rest && pairwise_disjoint rest
  end.

(** The offset of slot [i]: the rounded sizes of the requests before it,
    added up as the source adds them. *)
Definition offset_of (sizes : list Z) (i : nat) : Z :=
  accumulate_roundup_sizes 0 (firstn i sizes).

(** The pointers of the slots by a running offset: slot after slot, the
    offset advances by the rounded size. *)
Fixpoint layout (p : ptr) (offset : Z) (sizes : list Z) : list ptr :=
  match sizes with
  | [] => []
  | size :: rest =>
      (if size =? 0 then nullptr else ptr_add p offset)
        :: layout p (size_add offset (roundup_device_memory_size size)) rest
  end.

(** A block of [size] bytes at [base]. *)
Definition is_block (base : ptr) (size : Z) : Prop :=
  base <> nullptr /\ 0 <= base /\ base + size <= SIZE_MODULUS.

(** ** Workspace of the whole block (handle.hpp, [struct _gsu_malloc]) *)

Definition _gsu_malloc_ctor (device_allocator : allocator) (handle : _rocblas_handle)
  : construction :=
  let c := allocate_pointers device_allocator handle [device_memory_size handle] in
  let this := object c in
  let handle := handle_after c in
  let handle :=
    set_gsu_workspace_size (if is_ok this then total_size this else 0) handle in
  let handle := set_gsu_workspace (to_pointer this) handle in
  mk_construction this handle (allocator_requests c).

(** [~_gsu_malloc()], followed by the destructor of the base class. *)
Definition _gsu_malloc_dtor (handle : _rocblas_handle) : _rocblas_handle :=
  let handle := set_gsu_workspace_size 0 handle in
  let handle := set_gsu_workspace nullptr handle in
  _device_malloc_dtor handle.

Definition gsu_malloc := _gsu_malloc_ctor.

(** ** Scoped overrides (handle.hpp, [class _pushed_state]) *)

(** A reference to a member of the context: how to read and how to assign
    the member. *)
Record field_ref (CTX STATE : Type) : Type := mk_field_ref {
  load : CTX -> STATE;
  store : STATE -> CTX -> CTX
}.
Arguments mk_field_ref {CTX STATE} _ _.
Arguments load {CTX STATE} _ _.
Arguments store {CTX STATE} _ _ _.

(** A reference is to a member when a load after a store gives the value
    stored. *)
Definition is_member {CTX STATE : Type} (r : field_ref CTX STATE) : Prop :=
  forall v c, load r (store r v c) = v.

Record _pushed_state (CTX STATE : Type) : Type := mk_pushed_state {
  state : field_ref CTX STATE;
  old_state : STATE
}.
Arguments mk_pushed_state {CTX STATE} _ _.
Arguments state {CTX STATE} _.
Arguments old_state {CTX STATE} _.

(** The constructor, the destructor and the conversion to [STATE]; the
    first two return, next to the context, the values they assigned to the
    member. *)
Definition _pushed_state_ctor {CTX STATE : Type} (r : field_ref CTX STATE)
  (new_state : STATE) (c : CTX) : _pushed_state CTX STATE * CTX * list STATE :=
  (mk_pushed_state r (load r c), store r new_state c, [new_state]).

Definition _pushed_state_dtor {CTX STATE : Type} (g : _pushed_state CTX STATE)
  (c : CTX) : CTX * list STATE :=
  (store (state g) (old_state g) c, [old_state g]).

Definition _pushed_state_to_STATE {CTX STATE : Type} (g : _pushed_state CTX STATE)
  : STATE := old_state g.




(** How a function leaves the scope of a guard: with a status, by [return],
    or with an exception. *)
Inductive exit_path : Type :=
| returns (status : rocblas_status)
| throws (exception : Z).

(** A scope that holds a guard: the guard is constructed, the rest of the
    scope runs on the context and leaves on some path, and the destructor
    of the guard runs on that path.  The result is the path, the context,
    and the values the guard assigned to the member. *)
Definition scoped_push {CTX STATE : Type} (r : field_ref CTX STATE)
  (new_state : STATE) (body : _pushed_state CTX STATE -> CTX -> exit_path * CTX)
  (c : CTX) : exit_path * CTX * list STATE :=
  let '(g, c, w1) := _pushed_state_ctor r new_state c in
  let (e, c) := body g c in
  let (c, w2) := _pushed_state_dtor g c in
  (e, c, w1 ++ w2).




Definition pointer_mode_ref : field_ref _rocblas_handle rocblas_pointer_mode :=
  mk_field_ref pointer_mode set_pointer_mode.

Definition any_order_ref : field_ref _rocblas_handle bool :=
  mk_field_ref any_order set_any_order.

Definition push_pointer_mode (mode : rocblas_pointer_mode) :=
  _pushed_state_ctor pointer_mode_ref mode.

Definition push_any_order (new_any_order : bool) :=
  _pushed_state_ctor any_order_ref new_any_order.

(** ** Routine entry points *)

(** The records a routine hands to the logging functions (logging.hpp,
    not among the sources), by channel. *)
Inductive log_record : Type :=
| log_trace
| log_bench
| log_profile.

(** [layer_mode & bit] as a condition. *)
Definition layer_has (layer_mode bit : Z) : bool :=
  negb (Z.land layer_mode bit =? 0).

Definition log_if (b : bool) (r : log_record) : list log_record :=
  if b then [r] else [].

Definition is_success (s : rocblas_status) : bool :=
  match s with
  | rocblas_status_success => true
  | _ => false
  end.

(** [RETURN_ZERO_DEVICE_MEMORY_SIZE_IF_QUERIED(h)] returns
    [rocblas_status_size_unchanged] from the routine when
    [h->is_device_memory_size_query()]; the routines below write the test
    out. *)

Module her.

Record args : Type := mk_args {
  uplo : rocblas_fill;
  n : Z;
  alpha : ptr;
  x : ptr;
  incx : Z;
  A : ptr;
  lda : Z
}.

(** [rocblas_her_template] (rocblas_her.hpp, not among the sources). *)
Definition backend : Type := _rocblas_handle -> args -> rocblas_status.

Definition logging (h : _rocblas_handle) : list log_record :=
  let layer_mode := layer_mode h in
  if layer_has layer_mode
       (Z.lor rocblas_layer_mode_log_trace
          (Z.lor rocblas_layer_mode_log_bench rocblas_layer_mode_log_profile))
  then
    (match pointer_mode h with
     | rocblas_pointer_mode_host =>
         log_if (layer_has layer_mode rocblas_layer_mode_log_trace) log_trace
         ++ log_if (layer_has layer_mode rocblas_layer_mode_log_bench) log_bench
     | rocblas_pointer_mode_device =>
         log_if (layer_has layer_mode rocblas_layer_mode_log_trace) log_trace
     end)
    ++ log_if (layer_has layer_mode rocblas_layer_mode_log_profile) log_profile
  else [].

Definition uplo_invalid (u : rocblas_fill) : bool :=
  match u with
  | rocblas_fill_lower | rocblas_fill_upper => false
  | _ => true
  end.

Definition rocblas_her_impl (rocblas_her_template : backend)
  (handle : option _rocblas_handle) (a : args)
  : rocblas_status * list log_record :=
  match handle with
  | None => (rocblas_status_invalid_handle, [])
  | Some h =>
      if is_device_memory_size_query h then (rocblas_status_size_unchanged, [])
      else
        let logs := logging h in
        if uplo_invalid (uplo a) then (rocblas_status_invalid_value, logs)
        else if (n a <? 0) || (incx a =? 0) || (lda a <? n a) || (lda a <? 1)
        then (rocblas_status_invalid_size, logs)
        else if n a =? 0 then (rocblas_status_success, logs)
        else if is_null (x a) || is_null (A a) || is_null (alpha a)
        then (rocblas_status_invalid_pointer, logs)
        else (rocblas_her_template h a, logs)
  end.


End her.

Module gbmv_batched.

Record args : Type := mk_args {
  transA : rocblas_operation;
  m : Z;
  n : Z;
  kl : Z;
  ku : Z;
  alpha : ptr;
  A : ptr;
  lda : Z;
  x : ptr;
  incx : Z;
  beta : ptr;
  y : ptr;
  incy : Z;
  batch_count : Z
}.

(** [rocblas_gbmv_template] and [rocblas_gbmv_check_numerics]
    (rocblas_gbmv.hpp, not among the sources); the last argument of the
    second is [is_input]. *)
Record backend : Type := mk_backend {
  rocblas_gbmv_template : _rocblas_handle -> args -> rocblas_status;
  rocblas_gbmv_check_numerics : _rocblas_handle -> args -> Z -> bool -> rocblas_status
}.

Definition logging (h : _rocblas_handle) : list log_record :=
  let layer_mode := layer_mode h in
  if layer_has layer_mode
       (Z.lor rocblas_layer_mode_log_trace
          (Z.lor rocblas_layer_mode_log_bench rocblas_layer_mode_log_profile))
  then
    log_if (layer_has layer_mode rocblas_layer_mode_log_trace) log_trace
    ++ log_if (layer_has layer_mode rocblas_layer_mode_log_bench) log_bench
    ++ log_if (layer_has layer_mode rocblas_layer_mode_log_profile) log_profile
  else [].

(** The part of the routine after the pointer checks. *)
Definition compute (b : backend) (h : _rocblas_handle) (a : args) : rocblas_status :=
  let check_numerics := check_numerics h in
  let input_status :=
    if negb (check_numerics =? 0)
    then rocblas_gbmv_check_numerics b h a check_numerics true
    else rocblas_status_success in
  if negb (is_success input_status) then input_status
  else
    let status := rocblas_gbmv_template b h a in
    if negb (is_success status) then status
    else if negb (check_numerics =? 0) then
      let output_status := rocblas_gbmv_check_numerics b h a check_numerics false in
      if negb (is_success output_status) then output_status else status
    else status.


End gbmv_batched.


Definition gbmv_size_invalid (a : gbmv_batched.args) : Prop :=
  gbmv_batched.m a < 0 \/ gbmv_batched.n a < 0 \/
  gbmv_batched.lda a
  < int_add (int_add (gbmv_batched.ku a) (gbmv_batched.kl a)) 1 \/
  gbmv_batched.incx a = 0 \/ gbmv_batched.incy a = 0 \/
  gbmv_batched.kl a < 0 \/ gbmv_batched.ku a < 0 \/ gbmv_batched.batch_count a < 0.


(** ** Parts of handle.cpp, which is not among the sources *)

(** Modelled from the spec: [rocblas_start_device_memory_size_query]
    (handle.cpp is missing).  The transition from idle to querying begins a
    sizing session and zeroes the accumulated requirement. *)
Definition rocblas_start_device_memory_size_query (h : _rocblas_handle)
  : _rocblas_handle :=
  set_device_memory_query_size 0 (set_device_memory_size_query true h).

(** Modelled from the spec: [rocblas_stop_device_memory_size_query]
    (handle.cpp is missing).  The transition from querying to idle ends the
    session; the final recorded maximum is the returned sizing hint. *)
Definition rocblas_stop_device_memory_size_query (h : _rocblas_handle)
  : Z * _rocblas_handle :=
  (device_memory_query_size h, set_device_memory_size_query false h).

(** One size-query session: begin, the recordings of the calls, end. *)
Definition size_query_session (h : _rocblas_handle) (calls : list (list Z))
  : Z * _rocblas_handle :=
  rocblas_stop_device_memory_size_query
    (record_requirements (rocblas_start_device_memory_size_query h) calls).

(** Modelled from the spec: [_rocblas_handle::device_allocator] (handle.cpp
    is missing).  A request that fits the block is served from it.  A
    larger request fails on a caller-managed block, which is never grown;
    on a library-managed block the library asks the device for a block of
    the requested size ([device_alloc], which answers [nullptr] when it has
    none) and replaces its block.  A failed request leaves the block and
    the guard as they were; a served request sets the guard. *)
Definition spec_device_allocator (device_alloc : Z -> ptr) : allocator :=
  fun h size =>
    if size <=? device_memory_size h then
      (device_memory h, set_device_memory_in_use true h)
    else if device_memory_is_rocblas_managed h then
      let p := device_alloc size in
      if is_null p then (nullptr, h)
      else (p, set_device_memory_in_use true
                 (set_device_memory_size size (set_device_memory p h)))
    else (nullptr, h).

(** A caller-managed handle with the block of [size] bytes at [base]
    attached, and a library-managed handle with no block yet. *)
Definition caller_managed_handle (base : ptr) (size : Z) : _rocblas_handle :=
  set_device_memory_size size (set_device_memory base (new_handle 0)).

Definition library_managed_handle : _rocblas_handle :=
  mk_rocblas_handle 0 rocblas_pointer_mode_host rocblas_layer_mode_none
    rocblas_atomics_allowed false 0 0 0 nullptr true false false 0 nullptr.

(** ** Further parts of the sources *)

(** [set_optimal_device_memory_size] as the preprocessor leaves it for a
    standard before C++17: [total = 0] and the pack of [total += ...]. *)
Definition set_optimal_device_memory_size_cxx14 (h : _rocblas_handle)
  (sizes : list Z) : rocblas_status * _rocblas_handle :=
  if negb (device_memory_size_query h) then (rocblas_status_internal_error, h)
  else
    let total := accumulate_roundup_sizes 0 sizes in
    if device_memory_query_size h <? total
    then (rocblas_status_size_increased, set_device_memory_query_size total h)
    else (rocblas_status_size_unchanged, h).

(** The bytes the caller asks for, all requests together. *)
Definition sum_sizes (sizes : list Z) : Z := fold_right Z.add 0 sizes.


(** The channels a routine may log to, in the order of the source. *)
Definition log_channels : list log_record := [log_trace; log_bench; log_profile].

(** *** The tests of scal (the test file of the BLAS1 scal functions) *)

Module scal_gtest.

Import String.

(** The values of [blas1] that the file names; the enumeration itself is
    in blas1_gtest.hpp, which is not among the sources, and [other_blas1]
    stands for its other values. *)
Inductive blas1 : Type :=
| scal
| scal_batched
| scal_strided_batched
| other_blas1 (k : nat).

(** The types that the file names; [other_type] stands for any other
    type. *)
Inductive type : Type :=
| float
| double
| rocblas_float_complex
| rocblas_double_complex
| other_type (k : nat).

(** [std::is_same<T, U>{}] *)
Definition is_same (T U : type) : bool :=
  match T, U with
  | float, float => true
  | double, double => true
  | rocblas_float_complex, rocblas_float_complex => true
  | rocblas_double_complex, rocblas_double_complex => true
  | other_type j, other_type k => Nat.eqb j k
  | _, _ => false
  end.

Definition is_scal_function (BLAS1 : blas1) : bool :=
  match BLAS1 with
  | scal | scal_batched | scal_strided_batched => true
  | other_blas1 _ => false
  end.

(** [scal_enabled<BLAS1, Ti, To, Tc>] *)
Definition scal_enabled (BLAS1 : blas1) (Ti To Tc : type) : bool :=
  is_scal_function BLAS1
  && is_same To Tc
  && ((is_same Ti rocblas_float_complex && is_same Ti To)
      || (is_same Ti rocblas_double_complex && is_same Ti To)
      || (is_same Ti float && is_same Ti To)
      || (is_same Ti double && is_same Ti To)
      || (is_same Ti rocblas_float_complex && is_same To float)
      || (is_same Ti rocblas_double_complex && is_same To double)).

(** [#NAME] for the three instances of [BLAS1_TESTING]. *)
Definition NAME (BLAS1 : blas1) : String.string :=
  match BLAS1 with
  | scal => "scal"%string
  | scal_batched => "scal_batched"%string
  | scal_strided_batched => "scal_strided_batched"%string
  | other_blas1 _ => String.EmptyString
  end.

(** [#NAME "_bad_arg"] *)
Definition NAME_bad_arg (BLAS1 : blas1) : String.string :=
  String.append (NAME BLAS1) "_bad_arg"%string.

(** [!strcmp(a, b)] *)
Definition strcmp_eq (a b : String.string) : bool := String.eqb a b.

(** [NAME::function_filter(arg)], on [arg.function]. *)
Definition function_filter (BLAS1 : blas1) (function : String.string) : bool :=
  strcmp_eq function (NAME BLAS1) || strcmp_eq function (NAME_bad_arg BLAS1).

(** What [testing<Ti, To, Tc>] does with the arguments: the primary
    template is [rocblas_test_invalid]; the specialization for enabled types
    calls [testing_NAME], [testing_NAME_bad_arg], or [FAIL()]. *)
Inductive test_action : Type :=
| test_invalid
| testing
| testing_bad_arg
| FAIL_unknown_function.

Definition run_test (BLAS1 : blas1) (Ti To Tc : type)
  (function : String.string) : test_action :=
  if scal_enabled BLAS1 Ti To Tc then
    if strcmp_eq function (NAME BLAS1) then testing
    else if strcmp_eq function (NAME_bad_arg BLAS1)
         then testing_bad_arg
         else FAIL_unknown_function
  else test_invalid.

(** The real type of the elements of a complex type. *)
Definition real_of (T : type) : type :=
  match T with
  | rocblas_float_complex => float
  | rocblas_double_complex => double
  | T => T
  end.

Definition is_named (T : type) : bool :=
  match T with
  | other_type _ => false
  | _ => true
  end.

End scal_gtest.

(** ** Theorems *)

Lemma SIZE_MODULUS_val : SIZE_MODULUS = 18446744073709551616.
Proof. reflexivity. Qed.

Lemma wrap_range (z : Z) : is_size_t (wrap z).
Proof. unfold is_size_t, wrap. apply Z.mod_pos_bound. reflexivity. Qed.

Lemma wrap_small (z : Z) : is_size_t z -> wrap z = z.
Proof. unfold is_size_t, wrap. intros H. apply Z.mod_small. exact H. Qed.

Lemma static_assert_MIN_CHUNK_SIZE : MIN_CHUNK_SIZE_is_power_of_two = true.
Proof. reflexivity. Qed.

(** Setting the six low bits of a non-negative number. *)
Lemma lor_chunk_mask (x : Z) :
  0 <= x -> Z.lor x (MIN_CHUNK_SIZE - 1) = MIN_CHUNK_SIZE * (x / MIN_CHUNK_SIZE) + 63.
Proof.
  intros Hx.
  assert (Hl : Z.land x (MIN_CHUNK_SIZE - 1) = x mod MIN_CHUNK_SIZE).
  { change (MIN_CHUNK_SIZE - 1) with (Z.ones 6).
    rewrite Z.land_ones by lia. reflexivity. }
  pose proof (Z.add_lor_land x (MIN_CHUNK_SIZE - 1)) as Ha.
  rewrite Hl in Ha.
  pose proof (Z.div_mod x MIN_CHUNK_SIZE ltac:(discriminate)) as Hd.
  unfold MIN_CHUNK_SIZE in *. lia.
Qed.

(** The value of the rounding where no wrap-around happens. *)
Lemma roundup_exact (s : Z) :
  1 <= s <= SIZE_MODULUS - MIN_CHUNK_SIZE ->
  roundup_device_memory_size s = ceil_chunk s.
Proof.
  intros Hs. unfold roundup_device_memory_size, size_add, size_sub, ceil_chunk.
  rewrite SIZE_MODULUS_val in Hs. unfold MIN_CHUNK_SIZE in Hs.
  rewrite (wrap_small (s - 1)) by (unfold is_size_t; rewrite SIZE_MODULUS_val; lia).
  rewrite lor_chunk_mask by lia.
  replace (s + MIN_CHUNK_SIZE - 1) with ((s - 1) + 1 * MIN_CHUNK_SIZE)
    by (unfold MIN_CHUNK_SIZE; lia).
  rewrite Z.div_add by discriminate.
  pose proof (Z.div_mod (s - 1) MIN_CHUNK_SIZE ltac:(discriminate)) as Hd.
  pose proof (Z.mod_pos_bound (s - 1) MIN_CHUNK_SIZE ltac:(reflexivity)) as Hm.
  unfold MIN_CHUNK_SIZE in *.
  rewrite wrap_small by (unfold is_size_t; rewrite SIZE_MODULUS_val; lia).
  lia.
Qed.

Lemma roundup_range (s : Z) : is_size_t (roundup_device_memory_size s).
Proof. unfold roundup_device_memory_size, size_add. apply wrap_range. Qed.

(** Whatever the size, wrapped or not, the result is a multiple of the
    chunk size. *)
Lemma roundup_multiple (s : Z) :
  roundup_device_memory_size s mod MIN_CHUNK_SIZE = 0.
Proof.
  unfold roundup_device_memory_size, size_add.
  assert (Hx : 0 <= size_sub s 1) by apply (wrap_range (s - 1)).
  rewrite lor_chunk_mask by exact Hx.
  unfold wrap.
  rewrite Z.mod_mod_divide by (exists (2 ^ 58); reflexivity).
  replace (MIN_CHUNK_SIZE * (size_sub s 1 / MIN_CHUNK_SIZE) + 63 + 1)
    with ((size_sub s 1 / MIN_CHUNK_SIZE + 1) * MIN_CHUNK_SIZE)
    by (unfold MIN_CHUNK_SIZE; lia).
  apply Z.mod_mul. discriminate.
Qed.

(** Above the last multiple of the chunk size the addition wraps. *)
Lemma roundup_wraps (s : Z) :
  SIZE_MODULUS - MIN_CHUNK_SIZE < s < SIZE_MODULUS ->
  roundup_device_memory_size s = 0.
Proof.
  intros Hs. unfold roundup_device_memory_size, size_add, size_sub.
  rewrite SIZE_MODULUS_val in Hs. unfold MIN_CHUNK_SIZE in Hs.
  rewrite (wrap_small (s - 1)) by (unfold is_size_t; rewrite SIZE_MODULUS_val; lia).
  rewrite lor_chunk_mask by lia.
  pose proof (Z.div_mod (s - 1) MIN_CHUNK_SIZE ltac:(discriminate)) as Hd.
  pose proof (Z.mod_pos_bound (s - 1) MIN_CHUNK_SIZE ltac:(reflexivity)) as Hm.
  assert (Hq : (s - 1) / MIN_CHUNK_SIZE = 2 ^ 58 - 1).
  { unfold MIN_CHUNK_SIZE in *. change (2 ^ 58 - 1) with 288230376151711743. lia. }
  rewrite Hq. reflexivity.
Qed.

Lemma ceil_chunk_bounds (s : Z) :
  ceil_chunk s mod MIN_CHUNK_SIZE = 0 /\ s <= ceil_chunk s < s + MIN_CHUNK_SIZE.
Proof.
  unfold ceil_chunk.
  pose proof (Z.div_mod (s + MIN_CHUNK_SIZE - 1) MIN_CHUNK_SIZE ltac:(discriminate)) as Hd.
  pose proof (Z.mod_pos_bound (s + MIN_CHUNK_SIZE - 1) MIN_CHUNK_SIZE ltac:(reflexivity)) as Hm.
  split.
  - rewrite Z.mul_comm. apply Z.mod_mul. discriminate.
  - unfold MIN_CHUNK_SIZE in *. lia.
Qed.

Lemma roundup_zero : roundup_device_memory_size 0 = 0.
Proof. reflexivity. Qed.

(** The rounding is exact on every size up to the last multiple of the
    chunk size, zero included. *)
Lemma roundup_exact0 (s : Z) :
  0 <= s <= SIZE_MODULUS - MIN_CHUNK_SIZE ->
  roundup_device_memory_size s = ceil_chunk s.
Proof.
  intros Hs. destruct (Z.eq_dec s 0) as [-> | Hnz].
  - reflexivity.
  - apply roundup_exact. lia.
Qed.

(** C5 (counterexample): the largest [size_t] is at least 1, and its
    rounding is 0, which is below it. *)
Lemma roundup_size_max_is_below :
  1 <= SIZE_MAX /\ is_size_t SIZE_MAX /\
  roundup_device_memory_size SIZE_MAX = 0 /\
  ~ (roundup_device_memory_size SIZE_MAX >= SIZE_MAX).
Proof.
  split; [ discriminate | ].
  split; [ split; [ discriminate | reflexivity ] | ].
  split; [ reflexivity | ].
  intros H. apply H. reflexivity.
Qed.

(** C5 (amended): for every size [s] with [1 <= s <= 2^64 - 64], the
    rounding of [s] is a multiple of the chunk size [C = MIN_CHUNK_SIZE = 64],
    is at least [s], and is below [s + C]. *)
Theorem roundup_device_memory_size_correct (s : Z) :
  1 <= s <= SIZE_MODULUS - MIN_CHUNK_SIZE ->
  roundup_device_memory_size s mod MIN_CHUNK_SIZE = 0 /\
  roundup_device_memory_size s >= s /\
  roundup_device_memory_size s < s + MIN_CHUNK_SIZE.
Proof.
  intros Hs. rewrite (roundup_exact s Hs).
  destruct (ceil_chunk_bounds s) as [Hm Hb].
  repeat split; [ exact Hm | lia | lia ].
Qed.

Lemma roundup_device_memory_size_correct_witness :
  1 <= 100 <= SIZE_MODULUS - MIN_CHUNK_SIZE /\
  roundup_device_memory_size 100 = 128 /\
  (roundup_device_memory_size 100 mod MIN_CHUNK_SIZE = 0 /\
   roundup_device_memory_size 100 >= 100 /\
   roundup_device_memory_size 100 < 100 + MIN_CHUNK_SIZE).
Proof.
  split; [ split; discriminate | ].
  split; [ reflexivity | ].
  apply (roundup_device_memory_size_correct 100). split; discriminate.
Defined.

(** ** Sums of rounded sizes *)

Lemma wrap_add_r (a b : Z) : wrap (a + wrap b) = wrap (a + b).
Proof. unfold wrap. apply Zplus_mod_idemp_r. Qed.

Lemma wrap_add_l (a b : Z) : wrap (wrap a + b) = wrap (a + b).
Proof. unfold wrap. apply Zplus_mod_idemp_l. Qed.

(** The fold of the newer standard computes the wrapped sum. *)
Lemma fold_roundup_sizes_total (sizes : list Z) :
  fold_roundup_sizes sizes = rounded_total sizes.
Proof.
  unfold rounded_total.
  induction sizes as [ | size rest IH ]; [ reflexivity | ].
  destruct rest as [ | size' rest ].
  - simpl. rewrite Z.add_0_r. symmetry. apply wrap_small, roundup_range.
  - change (fold_roundup_sizes (size :: size' :: rest))
      with (size_add (roundup_device_memory_size size)
              (fold_roundup_sizes (size' :: rest))).
    rewrite IH. unfold size_add. rewrite wrap_add_r. reflexivity.
Qed.

(** So does the accumulation of the older standard. *)
Lemma accumulate_roundup_sizes_total (t : Z) (sizes : list Z) :
  wrap (accumulate_roundup_sizes t sizes) = wrap (t + sum_rounded sizes).
Proof.
  unfold accumulate_roundup_sizes.
  revert t. induction sizes as [ | size rest IH ]; intros t.
  - simpl. rewrite Z.add_0_r. reflexivity.
  - simpl. rewrite IH.
    unfold size_add. rewrite wrap_add_l. f_equal. lia.
Qed.

Lemma accumulate_roundup_sizes_range (t : Z) (sizes : list Z) :
  is_size_t t -> is_size_t (accumulate_roundup_sizes t sizes).
Proof.
  unfold accumulate_roundup_sizes.
  revert t. induction sizes as [ | size rest IH ]; intros t Ht.
  - exact Ht.
  - simpl. apply IH. apply wrap_range.
Qed.

Lemma accumulate_roundup_sizes_0 (sizes : list Z) :
  accumulate_roundup_sizes 0 sizes = rounded_total sizes.
Proof.
  rewrite <- (wrap_small (accumulate_roundup_sizes 0 sizes)).
  - rewrite accumulate_roundup_sizes_total. reflexivity.
  - apply accumulate_roundup_sizes_range. split; [ lia | reflexivity ].
Qed.

(** The two branches of the source agree. *)
Lemma fold_is_accumulate (sizes : list Z) :
  fold_roundup_sizes sizes = accumulate_roundup_sizes 0 sizes.
Proof.
  rewrite fold_roundup_sizes_total, accumulate_roundup_sizes_0. reflexivity.
Qed.

Lemma rounded_total_range (sizes : list Z) : is_size_t (rounded_total sizes).
Proof. apply wrap_range. Qed.

Lemma sum_ceil_lower (sizes : list Z) :
  Forall is_size_t sizes -> 0 <= sum_ceil sizes.
Proof.
  induction 1 as [ | s rest Hs _ IH ]; simpl; [ lia | ].
  destruct (ceil_chunk_bounds s) as [_ Hb]. unfold is_size_t in Hs. lia.
Qed.

(** A multiple of the chunk size below [2^64] is at most [2^64 - 64]. *)
Lemma ceil_chunk_fits (s : Z) :
  ceil_chunk s < SIZE_MODULUS -> ceil_chunk s <= SIZE_MODULUS - MIN_CHUNK_SIZE.
Proof.
  unfold ceil_chunk. rewrite SIZE_MODULUS_val. unfold MIN_CHUNK_SIZE.
  generalize ((s + 64 - 1) / 64). intros q Hq.
  assert (q <= 288230376151711743) by lia. lia.
Qed.

(** Without wrap-around the sum of the source is the exact sum. *)
Lemma no_wrap_sum (sizes : list Z) :
  no_wrap sizes -> sum_rounded sizes = sum_ceil sizes.
Proof.
  intros [Hall Hlt]. induction Hall as [ | s rest Hs Hrest IH ]; [ reflexivity | ].
  cbn [sum_rounded sum_ceil fold_right] in *.
  fold (sum_ceil rest) in *. fold (sum_rounded rest).
  pose proof (sum_ceil_lower rest Hrest) as H0.
  destruct (ceil_chunk_bounds s) as [_ Hb].
  unfold is_size_t in Hs.
  rewrite IH by lia.
  rewrite roundup_exact0; [ reflexivity | ].
  pose proof (ceil_chunk_fits s ltac:(lia)). lia.
Qed.

Lemma no_wrap_total (sizes : list Z) :
  no_wrap sizes -> rounded_total sizes = sum_ceil sizes.
Proof.
  intros H. unfold rounded_total. rewrite (no_wrap_sum sizes H).
  destruct H as [Hall Hlt]. apply wrap_small.
  split; [ apply sum_ceil_lower; exact Hall | exact Hlt ].
Qed.

(** ** Size queries *)

Lemma set_optimal_keeps_query (h : _rocblas_handle) (sizes : list Z) :
  device_memory_size_query (snd (set_optimal_device_memory_size h sizes))
  = device_memory_size_query h.
Proof.
  unfold set_optimal_device_memory_size.
  destruct (device_memory_size_query h) eqn:Hq; simpl; [ | exact Hq ].
  destruct (device_memory_query_size h <? fold_roundup_sizes sizes); exact Hq.
Qed.

Lemma set_optimal_query_size (h : _rocblas_handle) (sizes : list Z) :
  device_memory_size_query h = true ->
  device_memory_query_size (snd (set_optimal_device_memory_size h sizes))
  = Z.max (device_memory_query_size h) (rounded_total sizes).
Proof.
  intros Hq. unfold set_optimal_device_memory_size.
  rewrite Hq, fold_roundup_sizes_total. simpl.
  destruct (Z.ltb_spec (device_memory_query_size h) (rounded_total sizes)); simpl; lia.
Qed.

(** C2 (amended): in size-query mode the sizes are rounded by the rounding
    function and summed as [size_t] values (the sum is the exact sum of the
    sizes rounded up to the chunk size provided that sum is below [2^64]);
    exactly when the sum exceeds the recorded maximum, the maximum becomes
    the sum and the status is "size increased"; otherwise the handle is
    unchanged and the status is "size unchanged".  The memory block, its
    guard and every other member are left alone: nothing is allocated. *)
Theorem set_optimal_device_memory_size_in_query
  (h : _rocblas_handle) (sizes : list Z) :
  device_memory_size_query h = true ->
  let total := rounded_total sizes in
  let r := set_optimal_device_memory_size h sizes in
  (device_memory_query_size h < total <->
   r = (rocblas_status_size_increased, set_device_memory_query_size total h)) /\
  (total <= device_memory_query_size h <->
   r = (rocblas_status_size_unchanged, h)) /\
  (fst r = rocblas_status_size_increased \/ fst r = rocblas_status_size_unchanged) /\
  device_memory_query_size (snd r) = Z.max (device_memory_query_size h) total /\
  set_device_memory_query_size (device_memory_query_size h) (snd r) = h /\
  memory_block (snd r) = memory_block h /\
  device_memory_in_use (snd r) = device_memory_in_use h /\
  (no_wrap sizes -> total = sum_ceil sizes).
Proof.
  intros Hq total r. subst total r.
  unfold set_optimal_device_memory_size.
  rewrite Hq, fold_roundup_sizes_total. simpl.
  destruct (Z.ltb_spec (device_memory_query_size h) (rounded_total sizes)) as [Hlt | Hge];
    cbn [fst snd].
  - split; [ split; [ reflexivity | intros _; exact Hlt ] | ].
    split; [ split; [ lia | discriminate ] | ].
    split; [ left; reflexivity | ].
    split; [ simpl; lia | ].
    split; [ destruct h; reflexivity | ].
    split; [ reflexivity | ]. split; [ reflexivity | apply no_wrap_total ].
  - split; [ split; [ lia | discriminate ] | ].
    split; [ split; [ reflexivity | intros _; exact Hge ] | ].
    split; [ right; reflexivity | ].
    split; [ lia | ].
    split; [ destruct h; reflexivity | ].
    split; [ reflexivity | ]. split; [ reflexivity | apply no_wrap_total ].
Qed.

Lemma set_optimal_device_memory_size_in_query_witness :
  set_optimal_device_memory_size
    (rocblas_start_device_memory_size_query (new_handle 7)) [50; 200]
  = (rocblas_status_size_increased,
     set_device_memory_query_size 320
       (rocblas_start_device_memory_size_query (new_handle 7))).
Proof.
  apply (proj1 (proj1 (set_optimal_device_memory_size_in_query
                         (rocblas_start_device_memory_size_query (new_handle 7))
                         [50; 200] eq_refl))).
  reflexivity.
Defined.

(** C2 (counterexample): a handle in size-query mode with the recorded
    maximum 64, and the sizes [2^64 - 1] and [64].  Rounded up to the chunk
    size they are [2^64] and [64], and their sum exceeds the recorded
    maximum; the source computes the total 64, answers "size unchanged" and
    leaves the recorded maximum as it was. *)
Lemma set_optimal_unchanged_when_wrapping :
  let h := set_device_memory_query_size 64
             (rocblas_start_device_memory_size_query (new_handle 0)) in
  let sizes := [SIZE_MAX; 64] in
  device_memory_size_query h = true /\
  Forall is_size_t sizes /\
  device_memory_query_size h = 64 /\
  map ceil_chunk sizes = [SIZE_MODULUS; 64] /\
  sum_ceil sizes = SIZE_MODULUS + 64 /\
  device_memory_query_size h < sum_ceil sizes /\
  set_optimal_device_memory_size h sizes = (rocblas_status_size_unchanged, h).
Proof.
  cbv zeta.
  split; [ reflexivity | ].
  split; [ repeat constructor; discriminate | ].
  repeat split.
Qed.

(** C8: outside size-query mode the call returns "internal error" and
    leaves the handle, the recorded query size included, as it was. *)
Theorem set_optimal_device_memory_size_not_in_query
  (h : _rocblas_handle) (sizes : list Z) :
  device_memory_size_query h = false ->
  set_optimal_device_memory_size h sizes = (rocblas_status_internal_error, h) /\
  device_memory_query_size (snd (set_optimal_device_memory_size h sizes))
  = device_memory_query_size h.
Proof.
  intros Hq. unfold set_optimal_device_memory_size. rewrite Hq. simpl.
  split; reflexivity.
Qed.

Lemma set_optimal_device_memory_size_not_in_query_witness :
  set_optimal_device_memory_size (new_handle 7) [100]
  = (rocblas_status_internal_error, new_handle 7) /\
  device_memory_query_size (snd (set_optimal_device_memory_size (new_handle 7) [100]))
  = 7.
Proof.
  apply (set_optimal_device_memory_size_not_in_query (new_handle 7) [100]).
  reflexivity.
Defined.

(** ** Sessions of recordings *)

Lemma max_total_nonneg (totals : list Z) : 0 <= max_total totals.
Proof.
  unfold max_total. induction totals as [ | t rest IH ]; cbn [fold_right].
  - lia.
  - revert IH. generalize (fold_right Z.max 0 rest). intros u Hu. lia.
Qed.

Lemma max_total_Permutation (l l' : list Z) :
  Permutation l l' -> max_total l = max_total l'.
Proof.
  unfold max_total.
  induction 1 as [ | a l l' _ IH | a b l | l l' l'' _ IH1 _ IH2 ];
    cbn [fold_right].
  - reflexivity.
  - rewrite IH. reflexivity.
  - generalize (fold_right Z.max 0 l). intros t. lia.
  - rewrite IH1. exact IH2.
Qed.

Lemma record_requirements_keeps_query (h : _rocblas_handle) (calls : list (list Z)) :
  device_memory_size_query (record_requirements h calls) = device_memory_size_query h.
Proof.
  unfold record_requirements. revert h.
  induction calls as [ | sizes rest IH ]; intros h; simpl; [ reflexivity | ].
  rewrite IH. apply set_optimal_keeps_query.
Qed.

(** The recordings keep the running maximum. *)
Lemma record_requirements_query_size (h : _rocblas_handle) (calls : list (list Z)) :
  device_memory_size_query h = true ->
  0 <= device_memory_query_size h ->
  device_memory_query_size (record_requirements h calls)
  = Z.max (device_memory_query_size h) (max_total (map rounded_total calls)).
Proof.
  unfold record_requirements. revert h.
  induction calls as [ | sizes rest IH ]; intros h Hq H0; cbn [fold_left map].
  - change (max_total []) with 0. lia.
  - pose proof (set_optimal_query_size h sizes Hq) as Hs.
    rewrite IH; [ | rewrite set_optimal_keeps_query; exact Hq | lia ].
    rewrite Hs. change (max_total (rounded_total sizes :: map rounded_total rest))
      with (Z.max (rounded_total sizes) (max_total (map rounded_total rest))).
    lia.
Qed.

Lemma record_requirements_maximum (h : _rocblas_handle) (calls : list (list Z)) :
  device_memory_size_query h = true ->
  device_memory_query_size h = 0 ->
  device_memory_query_size (record_requirements h calls)
  = max_total (map rounded_total calls).
Proof.
  intros Hq H0. rewrite record_requirements_query_size by (try exact Hq; lia).
  rewrite H0. pose proof (max_total_nonneg (map rounded_total calls)). lia.
Qed.

(** C6: in a size-query session (query mode on, recorded size 0 at its
    beginning) the recorded requirement after any finite sequence of
    recordings, which is the value the end of the session reads, is the
    maximum of the recorded totals, and a permutation of the recordings
    gives the same value. *)
Theorem size_query_records_maximum
  (h : _rocblas_handle) (calls : list (list Z)) :
  device_memory_size_query h = true ->
  device_memory_query_size h = 0 ->
  device_memory_query_size (record_requirements h calls)
  = max_total (map rounded_total calls) /\
  forall calls', Permutation calls calls' ->
    device_memory_query_size (record_requirements h calls')
    = device_memory_query_size (record_requirements h calls).
Proof.
  intros Hq H0.
  split; [ apply record_requirements_maximum; assumption | ].
  intros calls' Hp. rewrite !record_requirements_maximum by assumption.
  apply max_total_Permutation, Permutation_map, Permutation_sym, Hp.
Qed.

Lemma size_query_records_maximum_witness :
  device_memory_query_size
    (record_requirements (rocblas_start_device_memory_size_query (new_handle 7))
       [[50]; [200]]) = 256 /\
  device_memory_query_size
    (record_requirements (rocblas_start_device_memory_size_query (new_handle 7))
       [[200]; [50]]) = 256.
Proof.
  destruct (size_query_records_maximum
              (rocblas_start_device_memory_size_query (new_handle 7))
              [[50]; [200]] eq_refl eq_refl) as [Hm Hp].
  split.
  - exact Hm.
  - rewrite (Hp [[200]; [50]] (perm_swap _ _ _)). exact Hm.
Defined.

(** The same for a whole session, with its begin and its end. *)
Lemma size_query_session_maximum (h : _rocblas_handle) (calls : list (list Z)) :
  fst (size_query_session h calls) = max_total (map rounded_total calls) /\
  device_memory_size_query (snd (size_query_session h calls)) = false.
Proof.
  unfold size_query_session, rocblas_stop_device_memory_size_query. simpl.
  split; [ | reflexivity ].
  apply (record_requirements_maximum
           (rocblas_start_device_memory_size_query h) calls); reflexivity.
Qed.

(** Scenario C of the spec. *)
Example scenario_C :
  fst (size_query_session (new_handle 7) [[50]; [200]])
  = roundup_device_memory_size 200.
Proof. reflexivity. Qed.

(** ** The arena allocation *)

Lemma allocate_offsets_total (t : Z) (sizes : list Z) :
  snd (allocate_offsets t sizes) = accumulate_roundup_sizes t sizes.
Proof.
  unfold accumulate_roundup_sizes. revert t.
  induction sizes as [ | size rest IH ]; intros t; simpl; [ reflexivity | ].
  specialize (IH (size_add t (roundup_device_memory_size size))).
  destruct (allocate_offsets (size_add t (roundup_device_memory_size size)) rest).
  exact IH.
Qed.

Lemma allocate_offsets_0 (sizes : list Z) :
  allocate_offsets 0 sizes = (fst (allocate_offsets 0 sizes), rounded_total sizes).
Proof.
  rewrite <- accumulate_roundup_sizes_0, <- allocate_offsets_total.
  destruct (allocate_offsets 0 sizes); reflexivity.
Qed.

Lemma allocate_offsets_cons (t size : Z) (rest : list Z) :
  fst (allocate_offsets t (size :: rest))
  = t :: fst (allocate_offsets (size_add t (roundup_device_memory_size size)) rest).
Proof.
  simpl. destruct (allocate_offsets (size_add t (roundup_device_memory_size size)) rest).
  reflexivity.
Qed.

(** The pack expansion with its counter [i] reads the offsets in order. *)
Lemma allocate_pack_layout (p : ptr) (sizes : list Z) :
  forall (pre : list Z) (t : Z),
    allocate_pack p (pre ++ fst (allocate_offsets t sizes)) (length pre) sizes
    = layout p t sizes.
Proof.
  induction sizes as [ | size rest IH ]; intros pre t; [ reflexivity | ].
  rewrite allocate_offsets_cons. cbn [allocate_pack layout].
  rewrite nth_middle. f_equal.
  specialize (IH (pre ++ [t]) (size_add t (roundup_device_memory_size size))).
  rewrite <- app_assoc, length_app, Nat.add_comm in IH. exact IH.
Qed.

Lemma layout_length (p : ptr) (sizes : list Z) :
  forall t, length (layout p t sizes) = length sizes.
Proof.
  induction sizes as [ | size rest IH ]; intros t; simpl; [ | rewrite IH ]; reflexivity.
Qed.

(** Slot [i] of the layout. *)
Lemma layout_nth_error (p : ptr) (sizes : list Z) :
  forall (t : Z) (i : nat) (size : Z),
    nth_error sizes i = Some size ->
    nth_error (layout p t sizes) i
    = Some (if size =? 0 then nullptr
            else ptr_add p (accumulate_roundup_sizes t (firstn i sizes))).
Proof.
  induction sizes as [ | s rest IH ]; intros t i size Hi.
  - destruct i; discriminate Hi.
  - destruct i as [ | i ].
    + injection Hi as ->. reflexivity.
    + simpl in Hi. cbn [layout nth_error firstn].
      rewrite (IH _ _ _ Hi). reflexivity.
Qed.

Lemma accumulate_multiple (sizes : list Z) :
  forall t, t mod MIN_CHUNK_SIZE = 0 ->
            accumulate_roundup_sizes t sizes mod MIN_CHUNK_SIZE = 0.
Proof.
  unfold accumulate_roundup_sizes.
  induction sizes as [ | s rest IH ]; intros t Ht; [ exact Ht | ].
  simpl. apply IH. unfold size_add, wrap.
  rewrite Z.mod_mod_divide by (exists (2 ^ 58); reflexivity).
  rewrite Z.add_mod, Ht, roundup_multiple by discriminate. reflexivity.
Qed.

Lemma null_pointers_all_null (sizes : list Z) :
  Forall (fun p => p = nullptr) (null_pointers sizes).
Proof.
  unfold null_pointers. induction (length sizes); simpl; constructor; auto.
Qed.

Lemma null_pointers_length (sizes : list Z) :
  length (null_pointers sizes) = length sizes.
Proof. apply repeat_length. Qed.

(** The three ways out of the constructor. *)
Lemma allocate_pointers_trivial (a : allocator) (h : _rocblas_handle) (sizes : list Z) :
  rounded_total sizes = 0 ->
  allocate_pointers a h sizes
  = mk_construction (mk_device_malloc true 0 (null_pointers sizes)) h [].
Proof.
  intros H0. unfold allocate_pointers.
  rewrite allocate_offsets_0, H0. reflexivity.
Qed.

Lemma allocate_pointers_failed (a : allocator) (h h' : _rocblas_handle)
  (sizes : list Z) :
  rounded_total sizes <> 0 ->
  a h (rounded_total sizes) = (nullptr, h') ->
  allocate_pointers a h sizes
  = mk_construction
      (mk_device_malloc false (rounded_total sizes) (null_pointers sizes))
      h' [rounded_total sizes].
Proof.
  intros Hnz Ha. unfold allocate_pointers.
  rewrite allocate_offsets_0.
  destruct (Z.eqb_spec (rounded_total sizes) 0) as [He | _]; [ contradiction | ].
  rewrite Ha. reflexivity.
Qed.

Lemma allocate_pointers_served (a : allocator) (h h' : _rocblas_handle)
  (sizes : list Z) (base : ptr) :
  rounded_total sizes <> 0 ->
  a h (rounded_total sizes) = (base, h') ->
  base <> nullptr ->
  allocate_pointers a h sizes
  = mk_construction
      (mk_device_malloc true (rounded_total sizes) (layout base 0 sizes))
      h' [rounded_total sizes].
Proof.
  intros Hnz Ha Hb. unfold allocate_pointers.
  rewrite allocate_offsets_0.
  destruct (Z.eqb_spec (rounded_total sizes) 0) as [He | _]; [ contradiction | ].
  rewrite Ha. unfold is_null.
  destruct (Z.eqb_spec base nullptr) as [He | _]; [ contradiction | ].
  rewrite <- (allocate_pack_layout base sizes [] 0). reflexivity.
Qed.

Lemma ceil_chunk_nonneg (s : Z) : is_size_t s -> 0 <= s <= ceil_chunk s.
Proof.
  intros Hs. destruct (ceil_chunk_bounds s) as [_ Hb]. unfold is_size_t in Hs. lia.
Qed.

(** One exact step of the running offset. *)
Lemma size_add_roundup_exact (t s : Z) :
  is_size_t s -> 0 <= t -> t + ceil_chunk s < SIZE_MODULUS ->
  size_add t (roundup_device_memory_size s) = t + ceil_chunk s.
Proof.
  intros Hs Ht Hlt. pose proof (ceil_chunk_nonneg s Hs) as Hc.
  rewrite roundup_exact0.
  - unfold size_add. apply wrap_small. unfold is_size_t. lia.
  - pose proof (ceil_chunk_fits s ltac:(lia)). lia.
Qed.

Lemma accumulate_exact (sizes : list Z) :
  forall t, Forall is_size_t sizes -> 0 <= t ->
            t + sum_ceil sizes < SIZE_MODULUS ->
            accumulate_roundup_sizes t sizes = t + sum_ceil sizes.
Proof.
  unfold accumulate_roundup_sizes.
  induction sizes as [ | s rest IH ]; intros t Hall Ht Hlt.
  - simpl. lia.
  - inversion Hall as [ | ? ? Hs Hrest ]; subst.
    cbn [fold_left sum_ceil fold_right] in *. fold (sum_ceil rest) in *.
    pose proof (sum_ceil_lower rest Hrest) as H0.
    pose proof (ceil_chunk_nonneg s Hs) as Hc.
    rewrite size_add_roundup_exact by (try assumption; lia).
    rewrite IH by (try assumption; lia). lia.
Qed.

Lemma sum_ceil_firstn (sizes : list Z) :
  forall i size, Forall is_size_t sizes -> nth_error sizes i = Some size ->
                 0 <= sum_ceil (firstn i sizes) /\
                 sum_ceil (firstn i sizes) + ceil_chunk size <= sum_ceil sizes.
Proof.
  induction sizes as [ | s rest IH ]; intros i size Hall Hi.
  - destruct i; discriminate Hi.
  - inversion Hall as [ | ? ? Hs Hrest ]; subst.
    pose proof (ceil_chunk_nonneg s Hs) as Hc.
    destruct i as [ | i ].
    + injection Hi as ->. cbn [firstn sum_ceil fold_right]. fold (sum_ceil rest).
      pose proof (sum_ceil_lower rest Hrest). lia.
    + simpl in Hi. destruct (IH i size Hrest Hi) as [Hlo Hhi].
      cbn [firstn sum_ceil fold_right].
      fold (sum_ceil rest). fold (sum_ceil (firstn i rest)). lia.
Qed.

(** Every sub-buffer of a layout starts at or after the running offset,
    and two of them never share a byte, as long as nothing wraps. *)
Lemma layout_disjoint (p : ptr) (sizes : list Z) :
  forall t, 0 < p -> 0 <= t -> Forall is_size_t sizes ->
            p + t + sum_ceil sizes <= SIZE_MODULUS ->
            Forall (fun b => p + t <= fst b)
              (filter (fun b => negb (snd b =? 0)) (combine (layout p t sizes) sizes)) /\
            pairwise_disjoint
              (filter (fun b => negb (snd b =? 0)) (combine (layout p t sizes) sizes))
            = true.
Proof.
  induction sizes as [ | s rest IH ]; intros t Hp Ht Hall Hfit.
  - split; [ constructor | reflexivity ].
  - inversion Hall as [ | ? ? Hs Hrest ]; subst.
    cbn [sum_ceil fold_right] in Hfit. fold (sum_ceil rest) in Hfit.
    pose proof (sum_ceil_lower rest Hrest) as H0.
    pose proof (ceil_chunk_nonneg s Hs) as Hc.
    cbn [layout combine filter snd].
    rewrite size_add_roundup_exact by (try assumption; lia).
    destruct (IH (t + ceil_chunk s) Hp ltac:(lia) Hrest ltac:(lia)) as [Hlow Hdis].
    destruct (Z.eqb_spec s 0) as [-> | Hnz]; cbn [negb].
    + split; [ | exact Hdis ].
      eapply Forall_impl; [ | exact Hlow ]. cbn beta. intros b Hb. lia.
    + assert (Hpt : ptr_add p t = p + t).
      { unfold ptr_add. apply wrap_small. unfold is_size_t. lia. }
      rewrite Hpt. split.
      * constructor; [ simpl; lia | ].
        eapply Forall_impl; [ | exact Hlow ]. cbn beta. intros b Hb. lia.
      * cbn [pairwise_disjoint]. rewrite Hdis, andb_true_r.
        apply forallb_forall. intros b Hb.
        rewrite Forall_forall in Hlow. specialize (Hlow b Hb). cbn beta in Hlow.
        unfold overlap. cbn [fst snd].
        destruct (Z.ltb_spec (fst b) (p + t + s)) as [Hlt | _];
          [ exfalso; unfold ptr in *; lia | rewrite andb_false_r; reflexivity ].
Qed.

Lemma Forall_firstn_sizes (P : Z -> Prop) (l : list Z) :
  forall i, Forall P l -> Forall P (firstn i l).
Proof.
  induction l as [ | a l IH ]; intros i Hl.
  - destruct i; constructor.
  - inversion Hl; subst. destruct i; cbn [firstn]; constructor; auto.
Qed.

(** Slot [i] of a layout when nothing wraps: the exact address, inside the
    block. *)
Lemma layout_exact (p : ptr) (sizes : list Z) (i : nat) (size : Z) :
  0 < p -> Forall is_size_t sizes -> p + sum_ceil sizes <= SIZE_MODULUS ->
  nth_error sizes i = Some size -> size <> 0 ->
  nth_error (layout p 0 sizes) i = Some (p + sum_ceil (firstn i sizes)) /\
  p <= p + sum_ceil (firstn i sizes) /\
  p + sum_ceil (firstn i sizes) + size <= p + sum_ceil sizes.
Proof.
  intros Hp Hall Hfit Hi Hnz.
  destruct (sum_ceil_firstn sizes i size Hall Hi) as [Hlo Hhi].
  assert (Hs : is_size_t size).
  { rewrite Forall_forall in Hall. apply Hall. eapply nth_error_In, Hi. }
  pose proof (ceil_chunk_nonneg size Hs) as Hc.
  rewrite (layout_nth_error p sizes 0 i size Hi).
  destruct (Z.eqb_spec size 0) as [He | _]; [ contradiction | ].
  rewrite accumulate_exact.
  - unfold ptr_add. rewrite wrap_small by (unfold is_size_t; lia).
    split; [ f_equal; lia | lia ].
  - apply Forall_firstn_sizes. exact Hall.
  - lia.
  - lia.
Qed.

Lemma firstn_S_nth_error (l : list Z) :
  forall i x, nth_error l i = Some x -> firstn (S i) l = firstn i l ++ [x].
Proof.
  induction l as [ | a l IH ]; intros i x Hi.
  - destruct i; discriminate Hi.
  - destruct i as [ | i ].
    + injection Hi as ->. reflexivity.
    + simpl in Hi. change (firstn (S (S i)) (a :: l)) with (a :: firstn (S i) l).
      rewrite (IH i x Hi). reflexivity.
Qed.

Lemma offset_of_range (sizes : list Z) (i : nat) : is_size_t (offset_of sizes i).
Proof.
  unfold offset_of. apply accumulate_roundup_sizes_range.
  split; [ lia | reflexivity ].
Qed.

(** A request of size zero does not move the offset of the next slot. *)
Lemma offset_of_after_zero (sizes : list Z) (i : nat) :
  nth_error sizes i = Some 0 -> offset_of sizes (S i) = offset_of sizes i.
Proof.
  intros Hi. unfold offset_of at 1.
  rewrite (firstn_S_nth_error sizes i 0 Hi).
  unfold accumulate_roundup_sizes. rewrite fold_left_app. cbn [fold_left].
  fold (accumulate_roundup_sizes 0 (firstn i sizes)). fold (offset_of sizes i).
  rewrite roundup_zero. unfold size_add. rewrite Z.add_0_r.
  apply wrap_small, offset_of_range.
Qed.

(** The allocator of the spec serves every request that the block of the
    handle covers. *)
Lemma spec_device_allocator_serves (device_alloc : Z -> ptr)
  (h : _rocblas_handle) (size : Z) :
  size <= device_memory_size h ->
  spec_device_allocator device_alloc h size
  = (device_memory h, set_device_memory_in_use true h).
Proof.
  intros Hfit. unfold spec_device_allocator.
  destruct (Z.leb_spec size (device_memory_size h)); [ reflexivity | lia ].
Qed.

(** C1 (amended): when the rounded total is 0 the allocation succeeds with
    all pointers null, the handle untouched and no call of the allocator.
    Otherwise, when the allocator yields a block at [base], the allocation
    succeeds, pointer [i] is null for a request of size zero and is
    [base] plus the sum (in [size_t] and address arithmetic) of the rounded
    sizes of the requests before it for any other request, every offset is a
    multiple of the chunk size, and a request of size zero does not move the
    offsets of the others.  Provided the exact sum of the sizes rounded up
    to the chunk size is below [2^64] (no [size_t] operation wraps around)
    and the block of that many bytes at [base] lies in the address space,
    the sub-buffers lie inside the block at the exact prefix sums and no two
    of them overlap.  In particular the allocator of the spec yields the
    block of the handle, and the allocation succeeds, whenever the handle
    has a block whose size is at least the total, which is the sum of the
    sizes rounded up to the chunk size whenever the size of the block is at
    least that sum. *)
Theorem device_malloc_pointers
  (device_allocator : allocator) (h : _rocblas_handle) (sizes : list Z) :
  let total := rounded_total sizes in
  let c := device_malloc device_allocator h sizes in
  (total = 0 ->
   c = mk_construction (mk_device_malloc true 0 (null_pointers sizes)) h []) /\
  (forall (base : ptr) (h' : _rocblas_handle),
      total <> 0 -> device_allocator h total = (base, h') -> base <> nullptr ->
      is_ok (object c) = true /\
      total_size (object c) = total /\
      handle_after c = h' /\
      allocator_requests c = [total] /\
      length (pointers (object c)) = length sizes /\
      (forall i size,
          nth_error sizes i = Some size ->
          nth_error (pointers (object c)) i
          = Some (if size =? 0 then nullptr else ptr_add base (offset_of sizes i)) /\
          offset_of sizes i mod MIN_CHUNK_SIZE = 0 /\
          (size = 0 -> offset_of sizes (S i) = offset_of sizes i)) /\
      (no_wrap sizes -> is_block base total ->
       (forall i size,
           nth_error sizes i = Some size -> size <> 0 ->
           nth_error (pointers (object c)) i
           = Some (base + sum_ceil (firstn i sizes)) /\
           base <= base + sum_ceil (firstn i sizes) /\
           base + sum_ceil (firstn i sizes) + size <= base + total) /\
       pairwise_disjoint (sub_buffers (object c) sizes) = true)) /\
  (forall device_alloc : Z -> ptr,
      device_memory h <> nullptr -> total <= device_memory_size h ->
      is_ok (object (device_malloc (spec_device_allocator device_alloc) h sizes))
      = true /\
      spec_device_allocator device_alloc h total
      = (device_memory h, set_device_memory_in_use true h)) /\
  (Forall is_size_t sizes -> is_size_t (device_memory_size h) ->
   sum_ceil sizes <= device_memory_size h ->
   no_wrap sizes /\ total = sum_ceil sizes /\ total <= device_memory_size h).
Proof.
  intros total c. subst total c. unfold device_malloc.
  split; [ | split; [ | split ] ].
  - apply allocate_pointers_trivial.
  - intros base h' Hnz Ha Hb.
    rewrite (allocate_pointers_served device_allocator h h' sizes base Hnz Ha Hb).
    cbn [object handle_after allocator_requests is_ok total_size success total pointers].
    split; [ reflexivity | ]. split; [ reflexivity | ]. split; [ reflexivity | ].
    split; [ reflexivity | ]. split; [ apply layout_length | ].
    split.
    + intros i size Hi. split; [ apply layout_nth_error; exact Hi | ].
      split.
      * apply accumulate_multiple. reflexivity.
      * intros ->. apply offset_of_after_zero. exact Hi.
    + intros Hnw [Hb0 [Hb1 Hb2]].
      rewrite (no_wrap_total sizes Hnw) in *.
      destruct Hnw as [Hall Hlt].
      assert (Hp : 0 < base) by (unfold nullptr in Hb0; lia).
      split.
      * intros i size Hi Hsz.
        apply layout_exact; assumption.
      * unfold sub_buffers. cbn [pointers].
        apply (layout_disjoint base sizes 0); try assumption; lia.
  - intros device_alloc Hblock Hfit.
    pose proof (spec_device_allocator_serves device_alloc h _ Hfit) as Hs.
    split; [ | exact Hs ].
    destruct (Z.eq_dec (rounded_total sizes) 0) as [H0 | Hnz].
    + rewrite allocate_pointers_trivial by exact H0. reflexivity.
    + rewrite (allocate_pointers_served _ h _ sizes _ Hnz Hs Hblock). reflexivity.
  - intros Hall [_ Hsize] Hfit.
    assert (Hnw : no_wrap sizes) by (split; [ exact Hall | lia ]).
    split; [ exact Hnw | ].
    rewrite (no_wrap_total sizes Hnw). split; [ reflexivity | exact Hfit ].
Qed.

(** Three requests, the first of size zero, on a caller-managed block of
    192 bytes at address 4096. *)
Lemma device_malloc_pointers_witness :
  pointers (object (device_malloc (spec_device_allocator (fun _ => nullptr))
                      (caller_managed_handle 4096 192) [0; 50; 100]))
  = [nullptr; 4096; 4160] /\
  nth_error
    (pointers (object (device_malloc (spec_device_allocator (fun _ => nullptr))
                         (caller_managed_handle 4096 192) [0; 50; 100]))) 2
  = Some (4096 + sum_ceil (firstn 2 [0; 50; 100])) /\
  pairwise_disjoint
    (sub_buffers (object (device_malloc (spec_device_allocator (fun _ => nullptr))
                            (caller_managed_handle 4096 192) [0; 50; 100]))
       [0; 50; 100]) = true.
Proof.
  split; [ reflexivity | ].
  destruct (device_malloc_pointers (spec_device_allocator (fun _ => nullptr))
              (caller_managed_handle 4096 192) [0; 50; 100]) as [_ [Hserved _]].
  destruct (Hserved 4096 (set_device_memory_in_use true (caller_managed_handle 4096 192)))
    as [_ [_ [_ [_ [_ [_ Hexact]]]]]].
  - discriminate.
  - reflexivity.
  - discriminate.
  - destruct Hexact as [Hslot Hdisjoint].
    + split; [ | reflexivity ].
      repeat constructor; discriminate.
    + split; [ discriminate | ]. split; discriminate.
    + split; [ | exact Hdisjoint ].
      apply (Hslot 2%nat 100); [ reflexivity | discriminate ].
Defined.

(** With the allocator of the spec, a block that is at least as large as
    the rounded total is sufficient. *)
Lemma spec_device_allocator_sufficient (device_alloc : Z -> ptr)
  (h : _rocblas_handle) (sizes : list Z) :
  rounded_total sizes <= device_memory_size h ->
  device_memory h <> nullptr ->
  is_ok (object (device_malloc (spec_device_allocator device_alloc) h sizes)) = true.
Proof.
  intros Hfit Hblock. unfold device_malloc.
  destruct (Z.eq_dec (rounded_total sizes) 0) as [H0 | Hnz].
  - rewrite allocate_pointers_trivial by exact H0. reflexivity.
  - rewrite (allocate_pointers_served _ h (set_device_memory_in_use true h) sizes
               (device_memory h) Hnz); [ reflexivity | | exact Hblock ].
    unfold spec_device_allocator.
    destruct (Z.leb_spec (rounded_total sizes) (device_memory_size h));
      [ reflexivity | lia ].
Qed.

(** Scenarios A, B and D of the spec, with the allocator of the spec.  In
    scenario A the device gives the library a block at address 8192. *)
Example scenario_A :
  let c := device_malloc (spec_device_allocator (fun _ => 8192))
             library_managed_handle [100] in
  is_ok (object c) = true /\ to_pointer (object c) = 8192 /\
  device_memory_size (handle_after c) = 128 /\
  roundup_device_memory_size 100 <= device_memory_size (handle_after c).
Proof. repeat split; discriminate. Qed.

Example scenario_B :
  let c := device_malloc (spec_device_allocator (fun _ => 8192))
             (caller_managed_handle 4096 64) [100] in
  is_ok (object c) = false /\ pointers (object c) = [nullptr] /\
  memory_block (handle_after c) = memory_block (caller_managed_handle 4096 64).
Proof. repeat split. Qed.

Example scenario_D :
  let c := device_malloc (spec_device_allocator (fun _ => nullptr))
             (caller_managed_handle 4096 64) [0; 50] in
  is_ok (object c) = true /\ pointers (object c) = [nullptr; 4096].
Proof. repeat split. Qed.

(** C1 (counterexample): two requests of sizes [2^64 - 1] and [64] on a
    caller-managed block of 64 bytes at address 4096.  The first size
    rounds to 0, the total is 64, the allocator yields the block, and both
    requests, neither of size zero, get the address 4096: the sub-buffers
    overlap. *)
Lemma device_malloc_overlap_when_wrapping :
  let a := spec_device_allocator (fun _ => nullptr) in
  let h := caller_managed_handle 4096 64 in
  let sizes := [SIZE_MAX; 64] in
  let c := device_malloc a h sizes in
  Forall is_size_t sizes /\
  rounded_total sizes = 64 /\
  a h (rounded_total sizes) = (4096, set_device_memory_in_use true h) /\
  is_block 4096 (rounded_total sizes) /\
  is_ok (object c) = true /\
  pointers (object c) = [4096; 4096] /\
  sub_buffers (object c) sizes = [(4096, SIZE_MAX); (4096, 64)] /\
  pairwise_disjoint (sub_buffers (object c) sizes) = false.
Proof.
  cbv zeta.
  split; [ repeat constructor; discriminate | ].
  split; [ reflexivity | ]. split; [ reflexivity | ].
  split; [ split; [ discriminate | split; discriminate ] | ].
  split; [ reflexivity | ]. split; [ reflexivity | ].
  split; reflexivity.
Qed.

(** The destructor touches the guard and nothing else. *)
Lemma _device_malloc_dtor_frame (g : _rocblas_handle) :
  memory_block (_device_malloc_dtor g) = memory_block g /\
  device_memory_in_use (_device_malloc_dtor g) = false /\
  set_device_memory_in_use (device_memory_in_use g) (_device_malloc_dtor g) = g.
Proof. destruct g. repeat split. Qed.

(** The allocator of the spec, when it returns no block, leaves the memory
    block as it was; the guard is the only member it may have touched. *)
Lemma spec_device_allocator_failure_frame (device_alloc : Z -> ptr)
  (h : _rocblas_handle) (size : Z) :
  fst (spec_device_allocator device_alloc h size) = nullptr ->
  memory_block (snd (spec_device_allocator device_alloc h size)) = memory_block h /\
  set_device_memory_in_use false (snd (spec_device_allocator device_alloc h size))
  = set_device_memory_in_use false h.
Proof.
  unfold spec_device_allocator.
  destruct (size <=? device_memory_size h); cbn [fst snd].
  - intros _. destruct h. split; reflexivity.
  - destruct (device_memory_is_rocblas_managed h); cbn [fst snd].
    + unfold is_null. destruct (Z.eqb_spec (device_alloc size) nullptr) as [He | Hne];
        cbn [fst snd]; intros Hp; [ split; reflexivity | contradiction ].
    + intros _. split; reflexivity.
Qed.

(** C3: when the allocator returns no block, the object is constructed
    with [success = false] and all pointers null, and after its destructor
    the guard is cleared and every other member of the handle, the memory
    block included, is as the allocator left it.  With the allocator of the
    spec, which leaves the block untouched when it fails, the memory block
    after the scope is the block before the allocation, and the handle is
    the handle before the allocation with the guard cleared.  The destructor
    never changes the block, whatever the handle. *)
Theorem device_malloc_exhausted
  (device_allocator : allocator) (device_alloc : Z -> ptr)
  (h h' : _rocblas_handle) (sizes : list Z) :
  let total := rounded_total sizes in
  total <> 0 ->
  (device_allocator h total = (nullptr, h') ->
   let c := device_malloc device_allocator h sizes in
   let h_end := _device_malloc_dtor (handle_after c) in
   is_ok (object c) = false /\
   total_size (object c) = total /\
   length (pointers (object c)) = length sizes /\
   Forall (fun p => p = nullptr) (pointers (object c)) /\
   allocator_requests c = [total] /\
   device_memory_in_use h_end = false /\
   h_end = set_device_memory_in_use false h') /\
  (fst (spec_device_allocator device_alloc h total) = nullptr ->
   let c := device_malloc (spec_device_allocator device_alloc) h sizes in
   let h_end := _device_malloc_dtor (handle_after c) in
   is_ok (object c) = false /\
   length (pointers (object c)) = length sizes /\
   Forall (fun p => p = nullptr) (pointers (object c)) /\
   memory_block h_end = memory_block h /\
   device_memory_in_use h_end = false /\
   h_end = set_device_memory_in_use false h) /\
  (forall g, memory_block (_device_malloc_dtor g) = memory_block g).
Proof.
  intros total Hnz. subst total. split; [ | split ].
  - intros Ha c h_end. subst c h_end. unfold device_malloc.
    rewrite (allocate_pointers_failed device_allocator h h' sizes Hnz Ha).
    cbn [object handle_after allocator_requests is_ok total_size success total pointers].
    split; [ reflexivity | ]. split; [ reflexivity | ].
    split; [ apply null_pointers_length | ].
    split; [ apply null_pointers_all_null | ].
    split; [ reflexivity | ]. split; reflexivity.
  - intros Hp c h_end. subst c h_end. unfold device_malloc.
    destruct (spec_device_allocator_failure_frame device_alloc h _ Hp) as [Hblock Hrest].
    rewrite (allocate_pointers_failed (spec_device_allocator device_alloc) h
               (snd (spec_device_allocator device_alloc h (rounded_total sizes)))
               sizes Hnz)
      by (rewrite <- Hp; apply surjective_pairing).
    cbn [object handle_after is_ok success pointers]. unfold _device_malloc_dtor.
    split; [ reflexivity | ].
    split; [ apply null_pointers_length | ].
    split; [ apply null_pointers_all_null | ].
    rewrite Hrest. split; [ destruct h; reflexivity | ].
    split; reflexivity.
  - intros g. apply _device_malloc_dtor_frame.
Qed.

(** Scenario B of the spec: a caller-managed block of 64 bytes and a
    request of 100 bytes. *)
Lemma device_malloc_exhausted_witness :
  is_ok (object (device_malloc (spec_device_allocator (fun _ => nullptr))
                   (caller_managed_handle 4096 64) [100])) = false /\
  memory_block
    (_device_malloc_dtor
       (handle_after (device_malloc (spec_device_allocator (fun _ => nullptr))
                        (caller_managed_handle 4096 64) [100])))
  = memory_block (caller_managed_handle 4096 64).
Proof.
  pose proof (device_malloc_exhausted (spec_device_allocator (fun _ => nullptr))
                (fun _ => nullptr)
                (caller_managed_handle 4096 64) (caller_managed_handle 4096 64) [100])
    as H.
  cbv zeta in H.
  destruct H as [_ [Hspec _]]; [ discriminate | ].
  destruct (Hspec eq_refl) as [Hok [_ [_ [Hblock _]]]].
  split; [ exact Hok | exact Hblock ].
Defined.

Lemma rounded_total_zeros (k : nat) : rounded_total (repeat 0 k) = 0.
Proof.
  rewrite <- accumulate_roundup_sizes_0.
  induction k as [ | k IH ]; [ reflexivity | exact IH ].
Qed.

(** C10: for size 0 the subtraction wraps to the largest [size_t], the
    bitwise or leaves it there, and the addition wraps to 0: the rounding of
    0 is 0.  So a recording of zero sizes only has the total 0, and an
    allocation of zero sizes only succeeds with null pointers, the handle
    untouched and no call of the allocator. *)
Theorem roundup_device_memory_size_of_zero :
  size_sub 0 1 = SIZE_MAX /\
  Z.lor SIZE_MAX (MIN_CHUNK_SIZE - 1) = SIZE_MAX /\
  size_add SIZE_MAX 1 = 0 /\
  roundup_device_memory_size 0 = 0 /\
  (forall k : nat,
      fold_roundup_sizes (repeat 0 k) = 0 /\
      accumulate_roundup_sizes 0 (repeat 0 k) = 0 /\
      forall (device_allocator : allocator) (h : _rocblas_handle),
        device_malloc device_allocator h (repeat 0 k)
        = mk_construction (mk_device_malloc true 0 (repeat nullptr k)) h []).
Proof.
  split; [ reflexivity | ]. split; [ reflexivity | ]. split; [ reflexivity | ].
  split; [ reflexivity | ].
  intros k. pose proof (rounded_total_zeros k) as Htot.
  split; [ rewrite fold_roundup_sizes_total; exact Htot | ].
  split; [ rewrite accumulate_roundup_sizes_0; exact Htot | ].
  intros a h. unfold device_malloc.
  rewrite (allocate_pointers_trivial a h (repeat 0 k) Htot).
  unfold null_pointers. rewrite repeat_length. reflexivity.
Qed.

(** With a handle in query mode, such a recording leaves the handle as it
    was and answers "size unchanged". *)
Lemma set_optimal_zero_sizes (h : _rocblas_handle) (k : nat) :
  device_memory_size_query h = true -> 0 <= device_memory_query_size h ->
  set_optimal_device_memory_size h (repeat 0 k) = (rocblas_status_size_unchanged, h).
Proof.
  intros Hq H0. unfold set_optimal_device_memory_size.
  rewrite Hq, fold_roundup_sizes_total, rounded_total_zeros. simpl.
  destruct (Z.ltb_spec (device_memory_query_size h) 0); [ lia | reflexivity ].
Qed.

(** ** The workspace of the whole block *)

Lemma allocate_pointers_total (a : allocator) (h : _rocblas_handle) (sizes : list Z) :
  total_size (object (allocate_pointers a h sizes)) = rounded_total sizes.
Proof.
  unfold allocate_pointers. rewrite allocate_offsets_0.
  destruct (rounded_total sizes =? 0); [ reflexivity | ].
  destruct (a h (rounded_total sizes)) as [p h']. destruct (is_null p); reflexivity.
Qed.

Lemma allocate_pointers_requests (a : allocator) (h : _rocblas_handle) (sizes : list Z) :
  allocator_requests (allocate_pointers a h sizes)
  = if rounded_total sizes =? 0 then [] else [rounded_total sizes].
Proof.
  unfold allocate_pointers. rewrite allocate_offsets_0.
  destruct (rounded_total sizes =? 0); [ reflexivity | ].
  destruct (a h (rounded_total sizes)) as [p h']. destruct (is_null p); reflexivity.
Qed.

Lemma allocate_pointers_not_ok (a : allocator) (h : _rocblas_handle) (sizes : list Z) :
  is_ok (object (allocate_pointers a h sizes)) = false ->
  pointers (object (allocate_pointers a h sizes)) = null_pointers sizes.
Proof.
  unfold allocate_pointers. rewrite allocate_offsets_0.
  destruct (rounded_total sizes =? 0); [ discriminate | ].
  destruct (a h (rounded_total sizes)) as [p h'].
  destruct (is_null p); [ reflexivity | discriminate ].
Qed.

Lemma set_gsu_workspace_frame (g : _rocblas_handle) (p : ptr) (s : Z) :
  set_gsu_workspace (gsu_workspace g)
    (set_gsu_workspace_size (gsu_workspace_size g)
       (set_gsu_workspace p (set_gsu_workspace_size s g))) = g.
Proof. destruct g. reflexivity. Qed.

Lemma rounded_total_single (size : Z) :
  rounded_total [size] = roundup_device_memory_size size.
Proof. rewrite <- fold_roundup_sizes_total. reflexivity. Qed.

(** C9: the constructor of [_gsu_malloc] allocates with the current size
    of the whole block as its one request, whatever the caller wants; it
    then sets [gsu_workspace] to the pointer of the allocation and
    [gsu_workspace_size] to its total if the allocation succeeded and to 0
    otherwise, and changes nothing else.  The destructor resets the two
    members to null and 0 (and clears the guard of the block). *)
Theorem gsu_malloc_workspace (device_allocator : allocator) (h : _rocblas_handle) :
  let request := device_memory_size h in
  let c0 := device_malloc device_allocator h [request] in
  let c := gsu_malloc device_allocator h in
  object c = object c0 /\
  allocator_requests c = allocator_requests c0 /\
  allocator_requests c
  = (if roundup_device_memory_size request =? 0 then []
     else [roundup_device_memory_size request]) /\
  total_size (object c) = roundup_device_memory_size request /\
  gsu_workspace (handle_after c) = to_pointer (object c) /\
  gsu_workspace_size (handle_after c)
  = (if is_ok (object c) then total_size (object c) else 0) /\
  (is_ok (object c) = false ->
   gsu_workspace (handle_after c) = nullptr /\
   gsu_workspace_size (handle_after c) = 0) /\
  (forall base h',
      roundup_device_memory_size request <> 0 ->
      device_allocator h (roundup_device_memory_size request) = (base, h') ->
      base <> nullptr -> is_size_t base ->
      gsu_workspace (handle_after c) = base /\
      gsu_workspace_size (handle_after c) = roundup_device_memory_size request) /\
  set_gsu_workspace (gsu_workspace (handle_after c0))
    (set_gsu_workspace_size (gsu_workspace_size (handle_after c0)) (handle_after c))
  = handle_after c0 /\
  (forall g,
      gsu_workspace (_gsu_malloc_dtor g) = nullptr /\
      gsu_workspace_size (_gsu_malloc_dtor g) = 0 /\
      device_memory_in_use (_gsu_malloc_dtor g) = false /\
      memory_block (_gsu_malloc_dtor g) = memory_block g).
Proof.
  intros request c0 c. subst c c0. unfold gsu_malloc, _gsu_malloc_ctor, device_malloc.
  cbn [object handle_after allocator_requests].
  set (c0 := allocate_pointers device_allocator h [request]).
  assert (Htot : total_size (object c0) = roundup_device_memory_size request).
  { unfold c0. rewrite allocate_pointers_total. apply rounded_total_single. }
  split; [ reflexivity | ]. split; [ reflexivity | ].
  split; [ unfold c0; rewrite allocate_pointers_requests, rounded_total_single;
           reflexivity | ].
  split; [ exact Htot | ]. split; [ reflexivity | ]. split; [ reflexivity | ].
  split.
  { intros Hko. cbn [gsu_workspace gsu_workspace_size set_gsu_workspace
                       set_gsu_workspace_size].
    rewrite Hko. split; [ | reflexivity ].
    unfold to_pointer, c0. rewrite allocate_pointers_not_ok by exact Hko.
    reflexivity. }
  split.
  { intros base h' Hnz Ha Hb Hrange.
    rewrite <- rounded_total_single in Hnz, Ha.
    clear Htot. subst c0. subst request.
    rewrite (allocate_pointers_served device_allocator h h' _ base Hnz Ha Hb).
    cbn [gsu_workspace gsu_workspace_size set_gsu_workspace set_gsu_workspace_size
         object is_ok total_size total success to_pointer pointers layout nth].
    split; [ | apply rounded_total_single ].
    destruct (Z.eqb_spec (device_memory_size h) 0) as [He | _].
    - exfalso. apply Hnz. rewrite rounded_total_single, He. reflexivity.
    - unfold ptr_add. rewrite Z.add_0_r. apply wrap_small. exact Hrange. }
  split; [ apply set_gsu_workspace_frame | ].
  intros g. destruct g. repeat split.
Qed.

Lemma gsu_malloc_workspace_witness :
  gsu_workspace
    (handle_after (gsu_malloc (spec_device_allocator (fun _ => nullptr))
                     (caller_managed_handle 4096 128))) = 4096 /\
  gsu_workspace_size
    (handle_after (gsu_malloc (spec_device_allocator (fun _ => nullptr))
                     (caller_managed_handle 4096 128))) = 128.
Proof.
  pose proof (gsu_malloc_workspace (spec_device_allocator (fun _ => nullptr))
                (caller_managed_handle 4096 128)) as H.
  cbv zeta in H. destruct H as [_ [_ [_ [_ [_ [_ [_ [Hserved _]]]]]]]].
  destruct (Hserved 4096
              (set_device_memory_in_use true (caller_managed_handle 4096 128)))
    as [Hw Hs].
  - discriminate.
  - reflexivity.
  - discriminate.
  - split; [ discriminate | reflexivity ].
  - split; [ exact Hw | exact Hs ].
Defined.

(** A block whose size is not a multiple of the chunk size: the request is
    rounded above the size of the block, and a caller-managed block cannot
    serve it. *)
Example gsu_malloc_unaligned_block :
  let c := gsu_malloc (spec_device_allocator (fun _ => nullptr))
             (caller_managed_handle 4096 100) in
  allocator_requests c = [128] /\ is_ok (object c) = false /\
  gsu_workspace (handle_after c) = nullptr /\
  gsu_workspace_size (handle_after c) = 0.
Proof. repeat split. Qed.

(** ** Scoped overrides *)

Lemma pointer_mode_ref_is_member : is_member pointer_mode_ref.
Proof. intros v c. reflexivity. Qed.

Lemma any_order_ref_is_member : is_member any_order_ref.
Proof. intros v c. reflexivity. Qed.

(** The two guards of the handle change their own member only. *)
Lemma push_pointer_mode_frame (mode : rocblas_pointer_mode) (h : _rocblas_handle) :
  set_pointer_mode (pointer_mode h) (snd (fst (push_pointer_mode mode h))) = h.
Proof. destruct h. reflexivity. Qed.

Lemma push_any_order_frame (new_any_order : bool) (h : _rocblas_handle) :
  set_any_order (any_order h) (snd (fst (push_any_order new_any_order h))) = h.
Proof. destruct h. reflexivity. Qed.




(** The same scope on a handle in host mode, left by an exception: the
    mode is the device mode inside and the host mode afterwards. *)
Example push_pointer_mode_exception :
  let body := fun (g : _pushed_state _rocblas_handle rocblas_pointer_mode) h =>
                (throws (match pointer_mode h with
                         | rocblas_pointer_mode_device => 1
                         | rocblas_pointer_mode_host => 0
                         end), h) in
  scoped_push pointer_mode_ref rocblas_pointer_mode_device body (new_handle 0)
  = (throws 1, new_handle 0, [rocblas_pointer_mode_device; rocblas_pointer_mode_host]).
Proof. reflexivity. Qed.

(** ** The order of the checks of a routine *)

Lemma int_wrap_small (z : Z) : is_int z -> int_wrap z = z.
Proof.
  unfold is_int, int_wrap, INT_MIN, INT_MAX. intros Hz.
  rewrite Z.mod_small by lia. lia.
Qed.

(** Inside the range of [int] the sum of the band check is the sum of the
    integers. *)
Lemma band_sum_exact (ku kl : Z) :
  is_int (ku + kl + 1) -> int_add (int_add ku kl) 1 = ku + kl + 1.
Proof.
  intros Hr. unfold int_add. rewrite <- (int_wrap_small (ku + kl + 1) Hr).
  unfold int_wrap.
  f_equal.
  replace ((ku + kl - INT_MIN) mod 2 ^ 32 + INT_MIN + 1 - INT_MIN)
    with ((ku + kl - INT_MIN) mod 2 ^ 32 + 1) by lia.
  rewrite Zplus_mod_idemp_l. f_equal. lia.
Qed.

(** Outside of it the sum wraps around: with [kl = ku = 2^30] the band
    check compares [lda] with a negative number, and the sizes pass. *)
Example band_sum_wraps :
  int_add (int_add (2 ^ 30) (2 ^ 30)) 1 = - 2 ^ 31 + 1 /\
  ~ gbmv_size_invalid
      (gbmv_batched.mk_args rocblas_operation_none 4 4 (2 ^ 30) (2 ^ 30) 4096 4096 5
         4096 1 4096 4096 1 1).
Proof.
  split; [ reflexivity | ].
  unfold gbmv_size_invalid. cbn. lia.
Qed.











(** ** More on the chunk rounding *)

Lemma multiple_of_chunk (m : Z) :
  m mod MIN_CHUNK_SIZE = 0 -> m = MIN_CHUNK_SIZE * (m / MIN_CHUNK_SIZE).
Proof.
  intros Hm. pose proof (Z.div_mod m MIN_CHUNK_SIZE ltac:(discriminate)) as Hd.
  rewrite Hm, Z.add_0_r in Hd. exact Hd.
Qed.

(** A size that is a multiple of the chunk size is its own rounding. *)
Lemma ceil_chunk_multiple (s : Z) : s mod MIN_CHUNK_SIZE = 0 -> ceil_chunk s = s.
Proof.
  intros Hm. pose proof (multiple_of_chunk s Hm) as Hs.
  destruct (ceil_chunk_bounds s) as [Hc Hb].
  pose proof (multiple_of_chunk (ceil_chunk s) Hc) as Hcs.
  unfold MIN_CHUNK_SIZE in *. lia.
Qed.

Lemma size_t_multiple_fits (s : Z) :
  is_size_t s -> s mod MIN_CHUNK_SIZE = 0 -> 0 <= s <= SIZE_MODULUS - MIN_CHUNK_SIZE.
Proof.
  intros [H0 H1] Hm. pose proof (multiple_of_chunk s Hm) as Hs.
  rewrite SIZE_MODULUS_val in *. unfold MIN_CHUNK_SIZE in *. lia.
Qed.

(** X1: up to the last multiple of the chunk size the bit trick of the
    source is the ceiling division, and its result is the least multiple of
    the chunk size that is not below the size. *)
Theorem roundup_is_least_multiple (s : Z) :
  0 <= s <= SIZE_MODULUS - MIN_CHUNK_SIZE ->
  roundup_device_memory_size s
  = MIN_CHUNK_SIZE * ((s + MIN_CHUNK_SIZE - 1) / MIN_CHUNK_SIZE) /\
  forall m, m mod MIN_CHUNK_SIZE = 0 -> s <= m -> roundup_device_memory_size s <= m.
Proof.
  intros Hs. rewrite (roundup_exact0 s Hs). split; [ reflexivity | ].
  intros m Hm Hle.
  destruct (ceil_chunk_bounds s) as [Hc Hb].
  pose proof (multiple_of_chunk m Hm) as Hmm.
  pose proof (multiple_of_chunk (ceil_chunk s) Hc) as Hcs.
  unfold MIN_CHUNK_SIZE in *. lia.
Qed.

Lemma roundup_is_least_multiple_witness :
  roundup_device_memory_size 65 = 128 /\ roundup_device_memory_size 65 <= 192.
Proof.
  destruct (roundup_is_least_multiple 65) as [Hv Hleast].
  - split; discriminate.
  - split; [ rewrite Hv; reflexivity | ].
    apply (Hleast 192); [ reflexivity | discriminate ].
Defined.

(** X2: a [size_t] value is its own rounding exactly when it is a multiple
    of the chunk size; hence rounding twice is rounding once, for every
    argument, wrapped or not. *)
Theorem roundup_fixed_points :
  (forall s, is_size_t s ->
             (roundup_device_memory_size s = s <-> s mod MIN_CHUNK_SIZE = 0)) /\
  (forall s, roundup_device_memory_size (roundup_device_memory_size s)
             = roundup_device_memory_size s).
Proof.
  assert (Hfix : forall s, is_size_t s -> s mod MIN_CHUNK_SIZE = 0 ->
                           roundup_device_memory_size s = s).
  { intros s Hs Hm. rewrite roundup_exact0 by (apply size_t_multiple_fits; assumption).
    apply ceil_chunk_multiple. exact Hm. }
  split.
  - intros s Hs. split.
    + intros He. rewrite <- He. apply roundup_multiple.
    + apply Hfix. exact Hs.
  - intros s. apply Hfix; [ apply roundup_range | apply roundup_multiple ].
Qed.

(** X3: the rounding of a [size_t] value is 0 exactly for the size 0 and
    for the sizes above the last multiple of the chunk size. *)
Theorem roundup_zero_iff (s : Z) :
  is_size_t s ->
  (roundup_device_memory_size s = 0
   <-> s = 0 \/ SIZE_MODULUS - MIN_CHUNK_SIZE < s).
Proof.
  intros [H0 H1].
  destruct (Z_le_gt_dec s (SIZE_MODULUS - MIN_CHUNK_SIZE)) as [Hle | Hgt].
  - rewrite roundup_exact0 by lia.
    destruct (ceil_chunk_bounds s) as [_ Hb]. split.
    + intros He. left. lia.
    + intros [-> | Habs]; [ reflexivity | lia ].
  - split; [ intros _; right; lia | intros _ ].
    apply roundup_wraps. lia.
Qed.

Lemma roundup_zero_iff_witness :
  roundup_device_memory_size (SIZE_MODULUS - 63) = 0.
Proof.
  apply (roundup_zero_iff (SIZE_MODULUS - 63)).
  - split; [ discriminate | reflexivity ].
  - right. reflexivity.
Defined.

(** X4: below the wrap-around the rounding is monotone. *)
Theorem roundup_monotone (s t : Z) :
  0 <= s -> s <= t -> t <= SIZE_MODULUS - MIN_CHUNK_SIZE ->
  roundup_device_memory_size s <= roundup_device_memory_size t.
Proof.
  intros H0 Hst Ht. rewrite !roundup_exact0 by lia.
  unfold ceil_chunk. apply Z.mul_le_mono_nonneg_l; [ discriminate | ].
  apply Z.div_le_mono; [ reflexivity | lia ].
Qed.

Lemma roundup_monotone_witness :
  roundup_device_memory_size 64 <= roundup_device_memory_size 65.
Proof.
  apply (roundup_monotone 64 65); discriminate.
Defined.

(** ** More on size queries *)

Lemma sum_rounded_Permutation (l l' : list Z) :
  Permutation l l' -> sum_rounded l = sum_rounded l'.
Proof.
  unfold sum_rounded.
  induction 1 as [ | a l l' _ IH | a b l | l l' l'' _ IH1 _ IH2 ];
    cbn [fold_right].
  - reflexivity.
  - rewrite IH. reflexivity.
  - lia.
  - rewrite IH1. exact IH2.
Qed.

Lemma rounded_total_Permutation (l l' : list Z) :
  Permutation l l' -> rounded_total l = rounded_total l'.
Proof.
  intros Hp. unfold rounded_total. rewrite (sum_rounded_Permutation l l' Hp).
  reflexivity.
Qed.

(** X5: the two branches that the preprocessor selects between, the fold
    expression of C++17 and the accumulation of the older standards, give
    the same status and the same handle. *)
Theorem set_optimal_branches_agree (h : _rocblas_handle) (sizes : list Z) :
  set_optimal_device_memory_size_cxx14 h sizes
  = set_optimal_device_memory_size h sizes.
Proof.
  unfold set_optimal_device_memory_size_cxx14, set_optimal_device_memory_size.
  rewrite fold_is_accumulate. reflexivity.
Qed.

(** X6: the order in which a routine lists its sizes does not matter to
    the recording. *)
Theorem set_optimal_order_irrelevant
  (h : _rocblas_handle) (sizes sizes' : list Z) :
  Permutation sizes sizes' ->
  set_optimal_device_memory_size h sizes = set_optimal_device_memory_size h sizes'.
Proof.
  intros Hp. unfold set_optimal_device_memory_size.
  rewrite !fold_roundup_sizes_total, (rounded_total_Permutation sizes sizes' Hp).
  reflexivity.
Qed.

Lemma set_optimal_order_irrelevant_witness :
  set_optimal_device_memory_size
    (rocblas_start_device_memory_size_query (new_handle 7)) [50; 200; 0]
  = set_optimal_device_memory_size
      (rocblas_start_device_memory_size_query (new_handle 7)) [0; 200; 50].
Proof.
  apply set_optimal_order_irrelevant.
  apply perm_trans with (l' := [0; 50; 200]).
  - apply perm_trans with (l' := [50; 0; 200]).
    + apply perm_skip, perm_swap.
    + apply perm_swap.
  - apply perm_skip, perm_swap.
Defined.

(** X7: recording the same sizes a second time changes nothing and
    answers "size unchanged", whatever the first recording answered. *)
Theorem set_optimal_idempotent (h : _rocblas_handle) (sizes : list Z) :
  device_memory_size_query h = true ->
  set_optimal_device_memory_size
    (snd (set_optimal_device_memory_size h sizes)) sizes
  = (rocblas_status_size_unchanged, snd (set_optimal_device_memory_size h sizes)).
Proof.
  intros Hq.
  pose proof (set_optimal_query_size h sizes Hq) as Hs.
  pose proof (set_optimal_keeps_query h sizes) as Hk. rewrite Hq in Hk.
  revert Hs Hk. generalize (snd (set_optimal_device_memory_size h sizes)).
  intros h1 Hs Hk. unfold set_optimal_device_memory_size.
  rewrite Hk, fold_roundup_sizes_total. simpl.
  destruct (Z.ltb_spec (device_memory_query_size h1) (rounded_total sizes));
    [ lia | reflexivity ].
Qed.

Lemma set_optimal_idempotent_witness :
  set_optimal_device_memory_size
    (snd (set_optimal_device_memory_size
            (rocblas_start_device_memory_size_query (new_handle 7)) [100])) [100]
  = (rocblas_status_size_unchanged,
     snd (set_optimal_device_memory_size
            (rocblas_start_device_memory_size_query (new_handle 7)) [100])).
Proof.
  apply set_optimal_idempotent. reflexivity.
Defined.

Lemma set_optimal_frame (h : _rocblas_handle) (sizes : list Z) :
  device_memory_query_size h
  <= device_memory_query_size (snd (set_optimal_device_memory_size h sizes)) /\
  forall q, set_device_memory_query_size q
              (snd (set_optimal_device_memory_size h sizes))
            = set_device_memory_query_size q h.
Proof.
  unfold set_optimal_device_memory_size.
  destruct (device_memory_size_query h); cbn [negb].
  - destruct (Z.ltb_spec (device_memory_query_size h) (fold_roundup_sizes sizes));
      cbn [snd]; (split; [ simpl; lia | reflexivity ]).
  - cbn [snd]. split; [ lia | reflexivity ].
Qed.

Lemma record_requirements_frame (calls : list (list Z)) :
  forall h,
    device_memory_query_size h
    <= device_memory_query_size (record_requirements h calls) /\
    forall q, set_device_memory_query_size q (record_requirements h calls)
              = set_device_memory_query_size q h.
Proof.
  unfold record_requirements.
  induction calls as [ | sizes rest IH ]; intros h; cbn [fold_left].
  - split; [ lia | reflexivity ].
  - destruct (set_optimal_frame h sizes) as [Hle Hfr].
    destruct (IH (snd (set_optimal_device_memory_size h sizes))) as [Hle' Hfr'].
    split; [ lia | ].
    intros q. rewrite Hfr'. apply Hfr.
Qed.

(** X8: whatever the mode of the handle and whatever the recordings, the
    recorded size never decreases and no other member of the handle
    changes. *)
Theorem record_requirements_invariants
  (h : _rocblas_handle) (calls : list (list Z)) :
  device_memory_query_size h
  <= device_memory_query_size (record_requirements h calls) /\
  set_device_memory_query_size (device_memory_query_size h)
    (record_requirements h calls) = h.
Proof.
  destruct (record_requirements_frame calls h) as [Hle Hfr].
  split; [ exact Hle | ].
  rewrite Hfr. destruct h. reflexivity.
Qed.

Lemma record_requirements_covers (calls : list (list Z)) :
  forall h sizes,
    device_memory_size_query h = true -> In sizes calls ->
    rounded_total sizes <= device_memory_query_size (record_requirements h calls).
Proof.
  induction calls as [ | s rest IH ]; intros h sizes Hq Hin; [ contradiction | ].
  change (record_requirements h (s :: rest))
    with (record_requirements (snd (set_optimal_device_memory_size h s)) rest).
  destruct Hin as [-> | Hin].
  - pose proof (set_optimal_query_size h sizes Hq) as Hs.
    pose proof (proj1 (record_requirements_frame rest
                         (snd (set_optimal_device_memory_size h sizes)))).
    lia.
  - apply IH; [ rewrite set_optimal_keeps_query; exact Hq | exact Hin ].
Qed.

(** X9: what a session of recordings leaves as the recorded size covers
    every call of the session: the total that the allocation of the same
    sizes computes, and asks the allocator for, is never above it. *)
Theorem session_covers_every_call
  (h : _rocblas_handle) (calls : list (list Z)) (sizes : list Z)
  (device_allocator : allocator) (g : _rocblas_handle) :
  device_memory_size_query h = true ->
  In sizes calls ->
  total_size (object (device_malloc device_allocator g sizes))
  <= device_memory_query_size (record_requirements h calls) /\
  Forall (fun request =>
            request <= device_memory_query_size (record_requirements h calls))
    (allocator_requests (device_malloc device_allocator g sizes)).
Proof.
  intros Hq Hin.
  pose proof (record_requirements_covers calls h sizes Hq Hin) as Hc.
  unfold device_malloc. split.
  - rewrite allocate_pointers_total. exact Hc.
  - rewrite allocate_pointers_requests.
    destruct (rounded_total sizes =? 0); repeat constructor. exact Hc.
Qed.

Lemma session_covers_every_call_witness :
  total_size (object (device_malloc (spec_device_allocator (fun _ => nullptr))
                        (caller_managed_handle 4096 256) [50; 100]))
  <= device_memory_query_size
       (record_requirements (rocblas_start_device_memory_size_query (new_handle 7))
          [[200]; [50; 100]; [8]]).
Proof.
  apply (session_covers_every_call
           (rocblas_start_device_memory_size_query (new_handle 7))
           [[200]; [50; 100]; [8]] [50; 100]).
  - reflexivity.
  - right. left. reflexivity.
Defined.

(** ** More on the arena allocation *)

(** The constructor by the cases of its two tests. *)
Lemma allocate_pointers_cases (a : allocator) (h : _rocblas_handle) (sizes : list Z) :
  allocate_pointers a h sizes
  = if rounded_total sizes =? 0 then
      mk_construction (mk_device_malloc true (rounded_total sizes) (null_pointers sizes))
        h []
    else if is_null (fst (a h (rounded_total sizes))) then
      mk_construction (mk_device_malloc false (rounded_total sizes) (null_pointers sizes))
        (snd (a h (rounded_total sizes))) [rounded_total sizes]
    else
      mk_construction
        (mk_device_malloc true (rounded_total sizes)
           (layout (fst (a h (rounded_total sizes))) 0 sizes))
        (snd (a h (rounded_total sizes))) [rounded_total sizes].
Proof.
  unfold allocate_pointers. rewrite allocate_offsets_0.
  destruct (rounded_total sizes =? 0); [ reflexivity | ].
  destruct (a h (rounded_total sizes)) as [p h']. cbn [fst snd].
  destruct (is_null p); [ reflexivity | ].
  rewrite <- (allocate_pack_layout p sizes [] 0). reflexivity.
Qed.

Lemma null_pointers_nth_error (sizes : list Z) (i : nat) (size : Z) :
  nth_error sizes i = Some size -> nth_error (null_pointers sizes) i = Some nullptr.
Proof.
  intros Hi. unfold null_pointers.
  assert (Hlt : (i < length sizes)%nat).
  { apply nth_error_Some. rewrite Hi. discriminate. }
  clear Hi. revert i Hlt.
  induction (length sizes) as [ | k IH ]; intros i Hlt; [ lia | ].
  destruct i as [ | i ]; [ reflexivity | ]. simpl. apply IH. lia.
Qed.

Lemma rounded_total_multiple (sizes : list Z) :
  rounded_total sizes mod MIN_CHUNK_SIZE = 0.
Proof.
  rewrite <- accumulate_roundup_sizes_0. apply accumulate_multiple. reflexivity.
Qed.

(** X10: an allocation fails exactly when its rounded total is not 0 and
    the allocator, asked for that total, returns a null pointer. *)
Theorem device_malloc_fails_iff
  (device_allocator : allocator) (h : _rocblas_handle) (sizes : list Z) :
  is_ok (object (device_malloc device_allocator h sizes)) = false
  <-> rounded_total sizes <> 0 /\
      fst (device_allocator h (rounded_total sizes)) = nullptr.
Proof.
  unfold device_malloc. rewrite allocate_pointers_cases.
  destruct (Z.eqb_spec (rounded_total sizes) 0) as [He | Hne].
  - cbn [object is_ok success]. split; [ discriminate | intros [Hn _]; contradiction ].
  - unfold is_null.
    destruct (Z.eqb_spec (fst (device_allocator h (rounded_total sizes))) nullptr)
      as [Hp | Hp]; cbn [object is_ok success].
    + split; [ intros _; split; assumption | reflexivity ].
    + split; [ discriminate | intros [_ Habs]; contradiction ].
Qed.

(** X11: on every path of the constructor the total is the rounded total
    of the sizes (a multiple of the chunk size, success or not), there is
    one pointer per size, the pointer of a request of size zero is null, and
    the allocator is called at most once; the handle is the one given when
    the allocator is not called and the one the allocator returns when it
    is. *)
Theorem device_malloc_shape
  (device_allocator : allocator) (h : _rocblas_handle) (sizes : list Z) :
  let c := device_malloc device_allocator h sizes in
  total_size (object c) = rounded_total sizes /\
  total_size (object c) mod MIN_CHUNK_SIZE = 0 /\
  is_size_t (total_size (object c)) /\
  length (pointers (object c)) = length sizes /\
  (forall i, nth_error sizes i = Some 0 ->
             nth_error (pointers (object c)) i = Some nullptr) /\
  (rounded_total sizes = 0 ->
   allocator_requests c = [] /\ handle_after c = h) /\
  (rounded_total sizes <> 0 ->
   allocator_requests c = [rounded_total sizes] /\
   handle_after c = snd (device_allocator h (rounded_total sizes))).
Proof.
  intros c. subst c. unfold device_malloc.
  rewrite allocate_pointers_cases.
  destruct (Z.eqb_spec (rounded_total sizes) 0) as [He | Hne];
    [ | destruct (is_null (fst (device_allocator h (rounded_total sizes)))) ];
    cbn [object handle_after allocator_requests total_size total pointers];
    (split; [ reflexivity | ]);
    (split; [ apply rounded_total_multiple | ]);
    (split; [ apply rounded_total_range | ]).
  - split; [ apply null_pointers_length | ].
    split; [ intros i Hi; apply (null_pointers_nth_error sizes i 0 Hi) | ].
    split; [ intros _; split; reflexivity | intros Habs; contradiction ].
  - split; [ apply null_pointers_length | ].
    split; [ intros i Hi; apply (null_pointers_nth_error sizes i 0 Hi) | ].
    split; [ intros Habs; contradiction | intros _; split; reflexivity ].
  - split; [ apply layout_length | ].
    split; [ intros i Hi; rewrite (layout_nth_error _ sizes 0 i 0 Hi); reflexivity | ].
    split; [ intros Habs; contradiction | intros _; split; reflexivity ].
Qed.

(** X12: the destructor clears the guard of the block also for an
    allocation of total 0, which never called the allocator: a handle whose
    block is in use is marked free after such a scope, and nothing else
    changes. *)
Theorem trivial_allocation_clears_guard
  (device_allocator : allocator) (h : _rocblas_handle) (sizes : list Z) :
  rounded_total sizes = 0 ->
  _device_malloc_dtor (handle_after (device_malloc device_allocator h sizes))
  = set_device_memory_in_use false h.
Proof.
  intros H0. unfold device_malloc.
  rewrite (allocate_pointers_trivial device_allocator h sizes H0). reflexivity.
Qed.

Lemma trivial_allocation_clears_guard_witness :
  device_memory_in_use
    (set_device_memory_in_use true (caller_managed_handle 4096 64)) = true /\
  device_memory_in_use
    (_device_malloc_dtor
       (handle_after
          (device_malloc (spec_device_allocator (fun _ => nullptr))
             (set_device_memory_in_use true (caller_managed_handle 4096 64))
             [0; 0]))) = false.
Proof.
  split; [ reflexivity | ].
  rewrite (trivial_allocation_clears_guard (spec_device_allocator (fun _ => nullptr))
             (set_device_memory_in_use true (caller_managed_handle 4096 64)) [0; 0]
             eq_refl).
  reflexivity.
Defined.

Lemma sum_ceil_bounds (sizes : list Z) :
  Forall is_size_t sizes ->
  sum_sizes sizes <= sum_ceil sizes <= sum_sizes sizes + 63 * Z.of_nat (length sizes).
Proof.
  unfold sum_sizes, sum_ceil.
  induction 1 as [ | s rest Hs _ IH ]; cbn [fold_right length]; [ lia | ].
  destruct (ceil_chunk_bounds s) as [_ Hb]. unfold MIN_CHUNK_SIZE in Hb.
  rewrite Nat2Z.inj_succ. lia.
Qed.

(** X13: when nothing wraps around, the total of an allocation is at
    least the bytes asked for and at most 63 bytes per request more. *)
Theorem allocation_overhead_bound
  (device_allocator : allocator) (h : _rocblas_handle) (sizes : list Z) :
  no_wrap sizes ->
  sum_sizes sizes
  <= total_size (object (device_malloc device_allocator h sizes))
  <= sum_sizes sizes + 63 * Z.of_nat (length sizes).
Proof.
  intros Hnw. unfold device_malloc.
  rewrite allocate_pointers_total, (no_wrap_total sizes Hnw).
  apply sum_ceil_bounds. apply Hnw.
Qed.

Lemma allocation_overhead_bound_witness :
  sum_sizes [1; 64; 65]
  <= total_size (object (device_malloc (spec_device_allocator (fun _ => nullptr))
                           (caller_managed_handle 4096 256) [1; 64; 65]))
  <= sum_sizes [1; 64; 65] + 63 * 3.
Proof.
  apply (allocation_overhead_bound (spec_device_allocator (fun _ => nullptr))
           (caller_managed_handle 4096 256) [1; 64; 65]).
  split; [ repeat constructor; discriminate | reflexivity ].
Defined.

(** X14: the offsets of a list of requests followed by more requests are
    the offsets of the first list, followed by the offsets of the others
    counted from the total of the first list: requests added at the end move
    no earlier slot. *)
Theorem allocate_offsets_app (l1 l2 : list Z) (t : Z) :
  fst (allocate_offsets t (l1 ++ l2))
  = fst (allocate_offsets t l1)
    ++ fst (allocate_offsets (snd (allocate_offsets t l1)) l2) /\
  snd (allocate_offsets t (l1 ++ l2))
  = snd (allocate_offsets (snd (allocate_offsets t l1)) l2).
Proof.
  revert t. induction l1 as [ | s rest IH ]; intros t.
  - split; reflexivity.
  - cbn [app allocate_offsets].
    specialize (IH (size_add t (roundup_device_memory_size s))).
    destruct (allocate_offsets (size_add t (roundup_device_memory_size s)) (rest ++ l2))
      as [o12 t12].
    destruct (allocate_offsets (size_add t (roundup_device_memory_size s)) rest)
      as [o1 t1].
    cbn [fst snd] in *. destruct IH as [IH1 IH2].
    split; [ rewrite IH1; reflexivity | exact IH2 ].
Qed.

(** X15: the order of the sizes does not matter to the total, to the call
    of the allocator, to the handle and to success. *)
Theorem device_malloc_order_irrelevant
  (device_allocator : allocator) (h : _rocblas_handle) (sizes sizes' : list Z) :
  Permutation sizes sizes' ->
  let c := device_malloc device_allocator h sizes in
  let c' := device_malloc device_allocator h sizes' in
  is_ok (object c) = is_ok (object c') /\
  total_size (object c) = total_size (object c') /\
  allocator_requests c = allocator_requests c' /\
  handle_after c = handle_after c'.
Proof.
  intros Hp c c'. subst c c'. unfold device_malloc.
  rewrite !allocate_pointers_cases, (rounded_total_Permutation sizes sizes' Hp).
  destruct (rounded_total sizes' =? 0);
    [ | destruct (is_null (fst (device_allocator h (rounded_total sizes')))) ];
    repeat split.
Qed.

Lemma device_malloc_order_irrelevant_witness :
  total_size (object (device_malloc (spec_device_allocator (fun _ => nullptr))
                        (caller_managed_handle 4096 256) [50; 100]))
  = total_size (object (device_malloc (spec_device_allocator (fun _ => nullptr))
                          (caller_managed_handle 4096 256) [100; 50])).
Proof.
  apply (device_malloc_order_irrelevant (spec_device_allocator (fun _ => nullptr))
           (caller_managed_handle 4096 256) [50; 100] [100; 50]).
  apply perm_swap.
Defined.

(** ** More on the workspace of the whole block *)

(** X16: whatever the allocator does, the two workspace members that the
    constructor of [_gsu_malloc] sets agree: a workspace size of 0 comes
    with a null workspace, and the size is a multiple of the chunk size. *)
Theorem gsu_workspace_coherent (device_allocator : allocator) (h : _rocblas_handle) :
  let g := handle_after (gsu_malloc device_allocator h) in
  (gsu_workspace_size g = 0 -> gsu_workspace g = nullptr) /\
  (gsu_workspace g <> nullptr ->
   gsu_workspace_size g = roundup_device_memory_size (device_memory_size h)) /\
  gsu_workspace_size g mod MIN_CHUNK_SIZE = 0.
Proof.
  intros g. subst g. unfold gsu_malloc, _gsu_malloc_ctor.
  rewrite allocate_pointers_cases, rounded_total_single.
  set (r := roundup_device_memory_size (device_memory_size h)).
  assert (Hr : r mod MIN_CHUNK_SIZE = 0) by apply roundup_multiple.
  destruct (Z.eqb_spec r 0) as [He | Hne];
    [ | destruct (is_null (fst (device_allocator h r))) ];
    cbn [object handle_after is_ok total_size success total to_pointer pointers
         gsu_workspace gsu_workspace_size set_gsu_workspace set_gsu_workspace_size
         null_pointers length repeat nth].
  - split; [ reflexivity | ]. split; [ intros Habs; contradiction | exact Hr ].
  - split; [ reflexivity | ]. split; [ intros Habs; contradiction | reflexivity ].
  - split; [ intros Habs; contradiction | ]. split; [ reflexivity | exact Hr ].
Qed.

(** X17: [_gsu_malloc] rounds the size of the block like any request, so
    for a block whose size is not a multiple of the chunk size it asks the
    allocator for more bytes than the block has. *)
Theorem gsu_malloc_unaligned_request
  (device_allocator : allocator) (h : _rocblas_handle) :
  0 <= device_memory_size h <= SIZE_MODULUS - MIN_CHUNK_SIZE ->
  device_memory_size h mod MIN_CHUNK_SIZE <> 0 ->
  exists request,
    allocator_requests (gsu_malloc device_allocator h) = [request] /\
    device_memory_size h < request < device_memory_size h + MIN_CHUNK_SIZE.
Proof.
  intros Hrange Hmod.
  exists (roundup_device_memory_size (device_memory_size h)).
  unfold gsu_malloc, _gsu_malloc_ctor. cbn [allocator_requests].
  rewrite allocate_pointers_requests, rounded_total_single.
  pose proof (roundup_multiple (device_memory_size h)) as Hm.
  rewrite (roundup_exact0 _ Hrange) in *.
  destruct (ceil_chunk_bounds (device_memory_size h)) as [_ Hb].
  assert (Hne : ceil_chunk (device_memory_size h) <> device_memory_size h).
  { intros He. apply Hmod. rewrite <- He. exact Hm. }
  destruct (Z.eqb_spec (ceil_chunk (device_memory_size h)) 0) as [H0 | _].
  - exfalso. assert (device_memory_size h = 0) by lia. apply Hmod.
    replace (device_memory_size h) with 0 by lia. reflexivity.
  - split; [ reflexivity | lia ].
Qed.

Lemma gsu_malloc_unaligned_request_witness :
  exists request,
    allocator_requests (gsu_malloc (spec_device_allocator (fun _ => nullptr))
                          (caller_managed_handle 4096 100)) = [request] /\
    100 < request < 100 + MIN_CHUNK_SIZE.
Proof.
  apply (gsu_malloc_unaligned_request (spec_device_allocator (fun _ => nullptr))
           (caller_managed_handle 4096 100)).
  - split; discriminate.
  - discriminate.
Defined.

(** ** More on scoped overrides *)

(** X18: two guards on the same member, the second constructed while the
    first is alive and destroyed before it.  Inside the inner scope the
    member has the second value; after the inner destructor it has the first
    value again, and after the outer destructor its original value,
    whatever the code in between ([inner], [outer]) did to the context.  The
    conversion of each guard gives the value it saved. *)
Theorem nested_pushes_restore {CTX STATE : Type}
  (r : field_ref CTX STATE) (v1 v2 : STATE) (inner outer : CTX -> CTX) (c : CTX) :
  is_member r ->
  let p1 := _pushed_state_ctor r v1 c in
  let g1 := fst (fst p1) in
  let p2 := _pushed_state_ctor r v2 (snd (fst p1)) in
  let g2 := fst (fst p2) in
  let c_inner := snd (fst p2) in
  let c_between := fst (_pushed_state_dtor g2 (inner c_inner)) in
  let c_end := fst (_pushed_state_dtor g1 (outer c_between)) in
  load r c_inner = v2 /\
  load r c_between = v1 /\
  load r c_end = load r c /\
  _pushed_state_to_STATE g2 = v1 /\
  _pushed_state_to_STATE g1 = load r c.
Proof.
  intros Hm p1 g1 p2 g2 c_inner c_between c_end.
  subst c_end c_between c_inner g2 p2 g1 p1.
  unfold _pushed_state_ctor, _pushed_state_dtor, _pushed_state_to_STATE.
  cbn [fst snd old_state state].
  rewrite !Hm. repeat split.
Qed.

Lemma nested_pushes_restore_witness :
  pointer_mode
    (fst (_pushed_state_dtor
            (fst (fst (push_pointer_mode rocblas_pointer_mode_device (new_handle 0))))
            (fst (_pushed_state_dtor
                    (fst (fst (push_pointer_mode rocblas_pointer_mode_host
                                 (snd (fst (push_pointer_mode rocblas_pointer_mode_device
                                              (new_handle 0)))))))
                    (set_any_order true
                       (snd (fst (push_pointer_mode rocblas_pointer_mode_host
                                    (snd (fst (push_pointer_mode
                                                 rocblas_pointer_mode_device
                                                 (new_handle 0))))))))))))
  = rocblas_pointer_mode_host.
Proof.
  pose proof (nested_pushes_restore pointer_mode_ref rocblas_pointer_mode_device
                rocblas_pointer_mode_host (set_any_order true) (fun h => h)
                (new_handle 0) pointer_mode_ref_is_member) as H.
  cbv zeta in H. destruct H as [_ [_ [Hend _]]]. exact Hend.
Defined.

(** X19: an override of the pointer mode or of the any-order flag around
    code that leaves the handle alone gives back exactly the handle it
    started from, and each of the two guards leaves the member of the other
    alone. *)
Theorem push_round_trip (h : _rocblas_handle) (mode : rocblas_pointer_mode)
  (new_any_order : bool) (e : exit_path) :
  scoped_push pointer_mode_ref mode (fun _ g => (e, g)) h
  = (e, h, [mode; pointer_mode h]) /\
  scoped_push any_order_ref new_any_order (fun _ g => (e, g)) h
  = (e, h, [new_any_order; any_order h]) /\
  any_order (snd (fst (push_pointer_mode mode h))) = any_order h /\
  pointer_mode (snd (fst (push_any_order new_any_order h))) = pointer_mode h.
Proof. destruct h. repeat split. Qed.

(** ** More on the routines *)

(** X20: in [rocblas_her_impl], [n = 0] gives success only when [uplo],
    [incx] and [lda] are valid: the early return for an empty matrix comes
    after the checks of the values and of the sizes.  With [n = 0] the
    status is never "invalid pointer". *)
Theorem her_empty_matrix
  (rocblas_her_template : her.backend) (h : _rocblas_handle) (a : her.args) :
  is_device_memory_size_query h = false ->
  her.n a = 0 ->
  let s := fst (her.rocblas_her_impl rocblas_her_template (Some h) a) in
  (s = rocblas_status_success
   <-> (her.uplo a = rocblas_fill_lower \/ her.uplo a = rocblas_fill_upper) /\
       her.incx a <> 0 /\ 1 <= her.lda a) /\
  s <> rocblas_status_invalid_pointer /\
  (her.uplo a = rocblas_fill_full -> s = rocblas_status_invalid_value).
Proof.
  intros Hq Hn s. subst s. unfold her.rocblas_her_impl. rewrite Hq, Hn.
  destruct (her.uplo a); cbn [her.uplo_invalid fst];
    try (split; [ split; [ discriminate | intros [[H | H] _]; discriminate H ]
                | split; [ discriminate | reflexivity ] ]).
  all: destruct (Z.eqb_spec (her.incx a) 0) as [Hi | Hi];
    destruct (Z.ltb_spec (her.lda a) 0) as [Hl0 | Hl0];
    destruct (Z.ltb_spec (her.lda a) 1) as [Hl1 | Hl1];
    cbn [orb Z.ltb Z.compare Z.eqb fst];
    (split; [ split; [ try discriminate; intros _ | intros [_ [H1 H2]] ]
            | split; [ discriminate | discriminate ] ]);
    try reflexivity; try lia; try contradiction;
    try (split; [ tauto | split; [ assumption | lia ] ]).
Qed.

Lemma her_empty_matrix_witness :
  (fst (her.rocblas_her_impl (fun _ _ => rocblas_status_success)
          (Some (new_handle 0))
          (her.mk_args rocblas_fill_upper 0 nullptr nullptr 0 nullptr 1))
   = rocblas_status_invalid_size) /\
  (fst (her.rocblas_her_impl (fun _ _ => rocblas_status_success)
          (Some (new_handle 0))
          (her.mk_args rocblas_fill_upper 0 nullptr nullptr 0 nullptr 1))
   = rocblas_status_success
   <-> (rocblas_fill_upper = rocblas_fill_lower \/ rocblas_fill_upper = rocblas_fill_upper)
       /\ 0 <> 0 /\ 1 <= 1).
Proof.
  split; [ reflexivity | ].
  apply (her_empty_matrix (fun _ _ => rocblas_status_success) (new_handle 0)
           (her.mk_args rocblas_fill_upper 0 nullptr nullptr 0 nullptr 1)
           eq_refl eq_refl).
Defined.



(** X22: the computing part of [rocblas_gbmv_batched_impl] gives success
    exactly when the backend gives success and, if the handle asks for the
    check of the numerics, the checks of the inputs and of the outputs give
    success too. *)
Theorem gbmv_compute_success_iff
  (b : gbmv_batched.backend) (h : _rocblas_handle) (a : gbmv_batched.args) :
  gbmv_batched.compute b h a = rocblas_status_success
  <-> gbmv_batched.rocblas_gbmv_template b h a = rocblas_status_success /\
      (check_numerics h <> 0 ->
       gbmv_batched.rocblas_gbmv_check_numerics b h a (check_numerics h) true
       = rocblas_status_success /\
       gbmv_batched.rocblas_gbmv_check_numerics b h a (check_numerics h) false
       = rocblas_status_success).
Proof.
  unfold gbmv_batched.compute.
  destruct (Z.eqb_spec (check_numerics h) 0) as [H0 | Hn]; cbn [negb is_success].
  - destruct (gbmv_batched.rocblas_gbmv_template b h a); cbn [negb is_success];
      split; try discriminate; try (intros [H _]; discriminate H).
    + intros _. split; [ reflexivity | intros Habs; contradiction ].
    + intros _. reflexivity.
  - destruct (gbmv_batched.rocblas_gbmv_check_numerics b h a (check_numerics h) true);
      cbn [negb is_success];
      try (split; [ discriminate | intros [_ H]; destruct (H Hn) as [H1 _];
                                   discriminate H1 ]).
    destruct (gbmv_batched.rocblas_gbmv_template b h a); cbn [negb is_success];
      try (split; [ discriminate | intros [H _]; discriminate H ]).
    destruct (gbmv_batched.rocblas_gbmv_check_numerics b h a (check_numerics h) false);
      cbn [negb is_success];
      try (split; [ discriminate | intros [_ H]; destruct (H Hn) as [_ H2];
                                   discriminate H2 ]).
    split; [ intros _ | reflexivity ].
    split; [ reflexivity | intros _; split; reflexivity ].
Qed.

(** X23: the status of the computing part is the status of the first stage
    that does not give success.  Without the check of the numerics it is
    the status of the backend; a failed check of the inputs is returned
    without the backend, and a failed backend without the check of the
    outputs. *)
Theorem gbmv_compute_first_failure
  (b : gbmv_batched.backend) (h : _rocblas_handle) (a : gbmv_batched.args) :
  let input := gbmv_batched.rocblas_gbmv_check_numerics b h a (check_numerics h) true in
  let output := gbmv_batched.rocblas_gbmv_check_numerics b h a (check_numerics h) false in
  let status := gbmv_batched.rocblas_gbmv_template b h a in
  (check_numerics h = 0 -> gbmv_batched.compute b h a = status) /\
  (check_numerics h <> 0 -> input <> rocblas_status_success ->
   gbmv_batched.compute b h a = input) /\
  (check_numerics h <> 0 -> input = rocblas_status_success ->
   status <> rocblas_status_success -> gbmv_batched.compute b h a = status) /\
  (check_numerics h <> 0 -> input = rocblas_status_success ->
   status = rocblas_status_success -> gbmv_batched.compute b h a = output).
Proof.
  intros input output status. subst input output status.
  unfold gbmv_batched.compute.
  destruct (Z.eqb_spec (check_numerics h) 0) as [H0 | Hn]; cbn [negb is_success].
  - split; [ intros _ | repeat split; intros; contradiction ].
    destruct (gbmv_batched.rocblas_gbmv_template b h a); reflexivity.
  - split; [ intros; contradiction | ].
    split; [ intros _ Hin | split; intros _ Hin Hst; rewrite Hin; cbn [negb is_success] ].
    + destruct (gbmv_batched.rocblas_gbmv_check_numerics b h a (check_numerics h) true);
        try reflexivity. contradiction.
    + destruct (gbmv_batched.rocblas_gbmv_template b h a);
        try reflexivity. contradiction.
    + rewrite Hst. cbn [negb is_success].
      destruct (gbmv_batched.rocblas_gbmv_check_numerics b h a (check_numerics h) false);
        reflexivity.
Qed.

Lemma gbmv_compute_first_failure_witness :
  gbmv_batched.compute
    (gbmv_batched.mk_backend (fun _ _ => rocblas_status_success)
       (fun _ _ _ is_input =>
          if is_input then rocblas_status_invalid_value else rocblas_status_success))
    (new_handle 0)
    (gbmv_batched.mk_args rocblas_operation_none 4 4 1 1 4096 4096 3 4096 1 4096 4096 1 1)
  = rocblas_status_success.
Proof.
  apply (proj1 (gbmv_compute_first_failure
                  (gbmv_batched.mk_backend (fun _ _ => rocblas_status_success)
                     (fun _ _ _ is_input =>
                        if is_input then rocblas_status_invalid_value
                        else rocblas_status_success))
                  (new_handle 0)
                  (gbmv_batched.mk_args rocblas_operation_none 4 4 1 1 4096 4096 3
                     4096 1 4096 4096 1 1))).
  reflexivity.
Defined.



(** ** Logging *)

Lemma layer_has_lor (layer_mode a b : Z) :
  layer_has layer_mode (Z.lor a b) = layer_has layer_mode a || layer_has layer_mode b.
Proof.
  unfold layer_has. rewrite Z.land_lor_distr_r.
  destruct (Z.eqb_spec (Z.land layer_mode a) 0) as [Ha | Ha];
    destruct (Z.eqb_spec (Z.land layer_mode b) 0) as [Hb | Hb];
    destruct (Z.eqb_spec (Z.lor (Z.land layer_mode a) (Z.land layer_mode b)) 0)
      as [Hab | Hab]; try reflexivity; exfalso.
  - apply Hab. rewrite Ha, Hb. reflexivity.
  - apply Z.lor_eq_0_iff in Hab. tauto.
  - apply Z.lor_eq_0_iff in Hab. tauto.
  - apply Z.lor_eq_0_iff in Hab. tauto.
Qed.

(** X25: what the two routines log is decided channel by channel: trace,
    bench and profile, in this order, each when its bit of the layer mode
    is set, except that [rocblas_her_impl] logs to bench in host pointer
    mode only.  The test of the three bits together that guards the logging
    block changes nothing. *)
Theorem logging_by_channel (h : _rocblas_handle) :
  her.logging h
  = filter (fun r =>
              match r with
              | log_trace => layer_has (layer_mode h) rocblas_layer_mode_log_trace
              | log_bench =>
                  layer_has (layer_mode h) rocblas_layer_mode_log_bench
                  && match pointer_mode h with
                     | rocblas_pointer_mode_host => true
                     | rocblas_pointer_mode_device => false
                     end
              | log_profile => layer_has (layer_mode h) rocblas_layer_mode_log_profile
              end) log_channels /\
  gbmv_batched.logging h
  = filter (fun r =>
              match r with
              | log_trace => layer_has (layer_mode h) rocblas_layer_mode_log_trace
              | log_bench => layer_has (layer_mode h) rocblas_layer_mode_log_bench
              | log_profile => layer_has (layer_mode h) rocblas_layer_mode_log_profile
              end) log_channels.
Proof.
  unfold her.logging, gbmv_batched.logging, log_channels, log_if.
  rewrite !layer_has_lor. cbn [filter].
  destruct (layer_has (layer_mode h) rocblas_layer_mode_log_trace);
    destruct (layer_has (layer_mode h) rocblas_layer_mode_log_bench);
    destruct (layer_has (layer_mode h) rocblas_layer_mode_log_profile);
    destruct (pointer_mode h); split; reflexivity.
Qed.

(** ** The tests of scal *)

Lemma is_same_eq (T U : scal_gtest.type) : scal_gtest.is_same T U = true <-> T = U.
Proof.
  destruct T, U; simpl; split; try discriminate; try reflexivity; intros H.
  - apply Nat.eqb_eq in H. rewrite H. reflexivity.
  - injection H as ->. apply Nat.eqb_refl.
Qed.

(** X26: the tests of scal are enabled exactly for the three scal
    functions, with the compute type equal to the type of the scalar, the
    element type one of float, double and their complex types, and the type
    of the scalar either the element type or the real type of a complex
    element type. *)
Theorem scal_enabled_iff
  (BLAS1 : scal_gtest.blas1) (Ti To Tc : scal_gtest.type) :
  scal_gtest.scal_enabled BLAS1 Ti To Tc = true
  <-> scal_gtest.is_scal_function BLAS1 = true /\
      Tc = To /\
      scal_gtest.is_named Ti = true /\
      (To = Ti \/ To = scal_gtest.real_of Ti).
Proof.
  unfold scal_gtest.scal_enabled.
  rewrite !andb_true_iff, !orb_true_iff, !andb_true_iff, !is_same_eq.
  split.
  - intros [[Hb Htc] Hcase]. split; [ exact Hb | ]. split; [ symmetry; exact Htc | ].
    destruct Hcase as [[[[[[H1 H2] | [H1 H2]] | [H1 H2]] | [H1 H2]] | [H1 H2]] | [H1 H2]];
      subst; simpl; auto.
  - intros [Hb [Htc [Hn Hto]]]. split; [ split; [ exact Hb | symmetry; exact Htc ] | ].
    destruct Ti; try discriminate Hn; simpl in Hto; destruct Hto as [-> | ->]; tauto.
Qed.

Lemma append_bad_arg_differs (BLAS1 : scal_gtest.blas1) :
  String.eqb (scal_gtest.NAME BLAS1) (scal_gtest.NAME_bad_arg BLAS1) = false.
Proof. destruct BLAS1; reflexivity. Qed.

(** X27: for enabled types, the functions that [function_filter] lets
    through are exactly the ones that the test does not answer with [FAIL]:
    [NAME] runs [testing_NAME] and [NAME_bad_arg] runs
    [testing_NAME_bad_arg]. *)
Theorem function_filter_matches_dispatch
  (BLAS1 : scal_gtest.blas1) (Ti To Tc : scal_gtest.type)
  (function : String.string) :
  scal_gtest.scal_enabled BLAS1 Ti To Tc = true ->
  (scal_gtest.function_filter BLAS1 function = true
   <-> scal_gtest.run_test BLAS1 Ti To Tc function
       <> scal_gtest.FAIL_unknown_function) /\
  (scal_gtest.run_test BLAS1 Ti To Tc function = scal_gtest.testing
   <-> function = scal_gtest.NAME BLAS1) /\
  (scal_gtest.run_test BLAS1 Ti To Tc function = scal_gtest.testing_bad_arg
   <-> function = scal_gtest.NAME_bad_arg BLAS1).
Proof.
  intros He. unfold scal_gtest.function_filter, scal_gtest.run_test,
    scal_gtest.strcmp_eq.
  rewrite He.
  destruct (String.eqb_spec function (scal_gtest.NAME BLAS1)) as [H1 | H1].
  - cbn [orb]. split; [ split; [ discriminate | reflexivity ] | ].
    split; [ split; [ intros _; exact H1 | reflexivity ] | ].
    split; [ discriminate | ].
    intros H2. exfalso. pose proof (append_bad_arg_differs BLAS1) as Hd.
    rewrite <- H1, H2 in Hd at 1. rewrite String.eqb_refl in Hd. discriminate Hd.
  - cbn [orb].
    destruct (String.eqb_spec function (scal_gtest.NAME_bad_arg BLAS1)) as [H2 | H2].
    + split; [ split; [ discriminate | reflexivity ] | ].
      split; [ split; [ discriminate | intros Habs; contradiction ] | ].
      split; [ intros _; exact H2 | reflexivity ].
    + split; [ split; [ discriminate | intros Habs; exfalso; apply Habs; reflexivity ] | ].
      split; split; try discriminate; intros Habs; contradiction.
Qed.

Lemma function_filter_matches_dispatch_witness :
  scal_gtest.function_filter scal_gtest.scal_batched
    (scal_gtest.NAME_bad_arg scal_gtest.scal_batched) = true /\
  scal_gtest.run_test scal_gtest.scal_batched scal_gtest.rocblas_float_complex
    scal_gtest.float scal_gtest.float
    (scal_gtest.NAME_bad_arg scal_gtest.scal_batched)
  = scal_gtest.testing_bad_arg.
Proof.
  destruct (function_filter_matches_dispatch scal_gtest.scal_batched
              scal_gtest.rocblas_float_complex scal_gtest.float scal_gtest.float
              (scal_gtest.NAME_bad_arg scal_gtest.scal_batched) eq_refl)
    as [_ [_ Hbad]].
  split; [ reflexivity | ].
  apply Hbad. reflexivity.
Defined.
